(** * SolarQuote UK: the solar estimation engine and the lead scorer

    A shallow embedding of [lib/solar/constants.ts], [lib/solar/calculations.ts]
    and [lib/leads/scoring.ts], and the properties the specification states
    about them; then the request check of the calculate endpoint, the pure
    parts of the PVGIS client and the rate limiter of the leads endpoint,
    with further properties their code shows.

    Numbers.  A JavaScript [number] is modelled as an exact rational extended
    with the three non-finite values the engine can produce: [Infinity] (the
    payback sentinel, a division by zero), [-Infinity] and [NaN].  Finite
    arithmetic is exact: the binary64 rounding of each operation is not
    modelled, and zero carries no sign (a quotient by zero takes its sign from
    the numerator).  [Math.round] is rounding to the nearest integer with
    halves towards +Infinity, [Math.pow] is only used at natural exponents.

    The code's binary64 arithmetic differs from this in three ways that the
    statements allow for.  A result that the code rounds to tenths or pence
    is stated within 0.051 or 0.0051 of the exact quotient or product, not
    within 0.05 or 0.005: within rounding distance of a tie the code may
    return the neighbouring tenth or penny.  Where a statement says that a
    quotient or a product is finite, its inputs are bounded, since binary64
    overflows.  And where the sign of a zero divisor would decide the result,
    the statement asks for a positive divisor.

    Objects used as tables are association lists of their own properties;
    a missed lookup is [None], JavaScript's [undefined], which arithmetic
    turns into [NaN].  Properties inherited from [Object.prototype] are not
    modelled: a statement about an arbitrary key is for keys that are not
    among [JS.object_prototype_names], which a plain object finds in its
    prototype. *)

From Stdlib Require Import QArith Qround Qabs Qminmax Lqa Lia ZArith List String Bool.
From Stdlib Require Import DecimalString.
Import ListNotations.

Local Open Scope Q_scope.

(* ================================================================== *)
(** ** JavaScript numbers *)
(* ================================================================== *)

Module JS.

Inductive number : Type :=
| Fin (q : Q)
| PosInf
| NegInf
| NaN.

(** The infinity that a product or quotient with a non-finite operand
    yields, from the sign of the finite operand. *)
Definition signed_inf (c : comparison) : number :=
  match c with
  | Gt => PosInf
  | Lt => NegInf
  | Eq => NaN
  end.

Definition is_finite (a : number) : bool :=
  match a with Fin _ => true | _ => false end.

Definition is_nan (a : number) : bool :=
  match a with NaN => true | _ => false end.

Definition add (a b : number) : number :=
  match a, b with
  | NaN, _ | _, NaN => NaN
  | Fin x, Fin y => Fin (x + y)
  | PosInf, NegInf | NegInf, PosInf => NaN
  | PosInf, _ | _, PosInf => PosInf
  | NegInf, _ | _, NegInf => NegInf
  end.

Definition neg (a : number) : number :=
  match a with
  | Fin x => Fin (- x)
  | PosInf => NegInf
  | NegInf => PosInf
  | NaN => NaN
  end.

Definition sub (a b : number) : number := add a (neg b).

Definition mul (a b : number) : number :=
  match a, b with
  | NaN, _ | _, NaN => NaN
  | Fin x, Fin y => Fin (x * y)
  | Fin x, PosInf | PosInf, Fin x => signed_inf (x ?= 0)
  | Fin x, NegInf | NegInf, Fin x => signed_inf (CompOpp (x ?= 0))
  | PosInf, PosInf | NegInf, NegInf => PosInf
  | PosInf, NegInf | NegInf, PosInf => NegInf
  end.

Definition div (a b : number) : number :=
  match a, b with
  | NaN, _ | _, NaN => NaN
  | Fin x, Fin y => if Qeq_bool y 0 then signed_inf (x ?= 0) else Fin (x / y)
  | Fin _, PosInf | Fin _, NegInf => Fin 0
  | PosInf, Fin y => match y ?= 0 with Lt => NegInf | _ => PosInf end
  | NegInf, Fin y => match y ?= 0 with Lt => PosInf | _ => NegInf end
  | _, _ => NaN
  end.

(** [a <= b]; every comparison with [NaN] is false. *)
Definition leb (a b : number) : bool :=
  match a, b with
  | NaN, _ | _, NaN => false
  | Fin x, Fin y => Qle_bool x y
  | NegInf, _ | _, PosInf => true
  | _, _ => false
  end.

(** [a >= b]. *)
Definition geb (a b : number) : bool := leb b a.

(** [Math.min] and [Math.max] of two arguments. *)
Definition min (a b : number) : number :=
  match a, b with
  | NaN, _ | _, NaN => NaN
  | Fin x, Fin y => if Qle_bool x y then a else b
  | NegInf, _ | _, NegInf => NegInf
  | PosInf, c | c, PosInf => c
  end.

Definition max (a b : number) : number :=
  match a, b with
  | NaN, _ | _, NaN => NaN
  | Fin x, Fin y => if Qle_bool x y then b else a
  | PosInf, _ | _, PosInf => PosInf
  | NegInf, c | c, NegInf => c
  end.

(** [Math.round] on a rational: the nearest integer, a half going up. *)
Definition round_half_up (x : Q) : Z := Qfloor (x + (1 # 2)).

Definition round (a : number) : number :=
  match a with
  | Fin x => Fin (inject_Z (round_half_up x))
  | _ => a
  end.

Definition ceil (a : number) : number :=
  match a with
  | Fin x => Fin (inject_Z (Qceiling x))
  | _ => a
  end.

(** [Math.pow base n] for a finite base and a natural exponent. *)
Fixpoint pow_nat (base : Q) (n : nat) : Q :=
  match n with
  | O => 1
  | S k => base * pow_nat base k
  end.

Definition pow (base : number) (n : nat) : number :=
  match n, base with
  | O, _ => Fin 1
  | _, Fin x => Fin (pow_nat x n)
  | _, NaN => NaN
  | _, PosInf => PosInf
  | _, NegInf => if Nat.even n then PosInf else NegInf
  end.

(** Truthiness of a number: [0] and [NaN] are falsy. *)
Definition truthy (a : number) : bool :=
  match a with
  | Fin x => negb (Qeq_bool x 0)
  | NaN => false
  | _ => true
  end.

(** A value that may be [undefined]. *)
Definition to_number (v : option number) : number :=
  match v with
  | Some a => a
  | None => NaN
  end.

(** A parameter with a default value: the default replaces [undefined]. *)
Definition default_argument (v : option number) (default : number) : number :=
  match v with
  | Some a => a
  | None => default
  end.

(** [a || b] on numbers that may be [undefined]. *)
Definition or (a b : option number) : option number :=
  match a with
  | Some x => if truthy x then a else b
  | None => b
  end.

(** Truthiness of an optional string: [undefined] and [""] are falsy. *)
Definition truthy_string (s : option string) : bool :=
  match s with
  | Some EmptyString | None => false
  | Some _ => true
  end.

(** Strict equality [===] between numbers: [NaN] equals nothing. *)
Definition strict_eq (a b : number) : Prop :=
  match a, b with
  | Fin x, Fin y => x == y
  | PosInf, PosInf | NegInf, NegInf => True
  | _, _ => False
  end.

(** The property names every plain object inherits from [Object.prototype]:
    a read of one of them on a table finds a function or an object there,
    not [undefined]. *)
Definition object_prototype_names : list string :=
  ["constructor"; "hasOwnProperty"; "isPrototypeOf"; "propertyIsEnumerable";
   "toLocaleString"; "toString"; "valueOf"; "__proto__";
   "__defineGetter__"; "__defineSetter__"; "__lookupGetter__"; "__lookupSetter__"]%string.

Definition inherited (key : string) : bool :=
  existsb (String.eqb key) object_prototype_names.

(** Own-property lookup in an object literal whose values are numbers.  It
    is the code's [table[key]] for every [key] that is not [inherited]. *)
Fixpoint lookup (key : string) (table : list (string * Q)) : option number :=
  match table with
  | [] => None
  | (k, v) :: rest => if String.eqb key k then Some (Fin v) else lookup key rest
  end.

(** The same for an object whose keys are integers. *)
Fixpoint lookup_int (key : Z) (table : list (Z * Q)) : option number :=
  match table with
  | [] => None
  | (k, v) :: rest => if Z.eqb key k then Some (Fin v) else lookup_int key rest
  end.

(** [Array.prototype.sort((a, b) => a - b)] on integers. *)
Fixpoint insert_asc (x : Z) (l : list Z) : list Z :=
  match l with
  | [] => [x]
  | y :: rest => if Z.leb x y then x :: l else y :: insert_asc x rest
  end.

Definition sort_asc (l : list Z) : list Z := fold_right insert_asc [] l.

(** [Array.prototype.map] with the element's index. *)
Fixpoint mapi_from {A B : Type} (f : A -> nat -> B) (i : nat) (l : list A) : list B :=
  match l with
  | [] => []
  | x :: rest => f x i :: mapi_from f (S i) rest
  end.

Definition mapi {A B : Type} (f : A -> nat -> B) (l : list A) : list B :=
  mapi_from f 0%nat l.

End JS.

Declare Scope js_scope.
Delimit Scope js_scope with js.
Infix "+" := JS.add : js_scope.
Infix "-" := JS.sub : js_scope.
Infix "*" := JS.mul : js_scope.
Infix "/" := JS.div : js_scope.
Infix "<=?" := JS.leb (at level 70) : js_scope.
Infix ">=?" := JS.geb (at level 70) : js_scope.
Infix "===" := JS.strict_eq (at level 70) : js_scope.
Coercion JS.Fin : Q >-> JS.number.

Local Open Scope string_scope.
Local Open Scope js_scope.

(* ================================================================== *)
(** ** Types ([types/solar.ts]) *)
(* ================================================================== *)

Inductive RoofOrientation : Type := N | NE | E | SE | S | SW | W | NW | flat.

Inductive HomeOccupancy : Type := always | daytime | evening | variable.

(** The property name each enumerated value stands for. *)
Definition orientation_key (o : RoofOrientation) : string :=
  match o with
  | N => "N" | NE => "NE" | E => "E" | SE => "SE" | S => "S"
  | SW => "SW" | W => "W" | NW => "NW" | flat => "flat"
  end.

Definition occupancy_key (o : HomeOccupancy) : string :=
  match o with
  | always => "always" | daytime => "daytime"
  | evening => "evening" | variable => "variable"
  end.

(** Caller-supplied numbers are finite. *)
Record CalculatorInputs : Type := {
  postcode : string;
  latitude : Q;
  longitude : Q;
  roofOrientation : RoofOrientation;
  roofPitch : Q;
  roofArea : Q;
  shadingFactor : Q;
  annualElectricityUsage : Q;
  homeOccupancy : HomeOccupancy;
  electricityUnitRate : option Q;
  exportTariffRate : option Q
}.

(** [selfConsumedKwh] and [exportedKwh] carry the prefix [m_] here: the
    result record below has fields of the same names. *)
Record MonthlyGeneration : Type := {
  month : nat;
  monthName : string;
  generationKwh : JS.number;
  m_selfConsumedKwh : JS.number;
  m_exportedKwh : JS.number
}.

Inductive IrradianceSource : Type := PVGIS | UK_AVERAGE.

(** [systemLossFactorUsed] is the metadata's [systemLossFactor]. *)
Record CalculationMetadata : Type := {
  calculatedAt : string;
  irradianceUsed : JS.number;
  irradianceSource : IrradianceSource;
  electricityRate : JS.number;
  exportRate : JS.number;
  systemLossFactorUsed : JS.number;
  orientationFactor : JS.number
}.

Record CalculatorResults : Type := {
  recommendedSystemSize : JS.number;
  numberOfPanels : JS.number;
  estimatedAnnualGeneration : JS.number;
  monthlyGeneration : list MonthlyGeneration;
  selfConsumptionRatio : JS.number;
  selfConsumedKwh : JS.number;
  exportedKwh : JS.number;
  annualSavings : JS.number;
  annualExportEarnings : JS.number;
  totalAnnualBenefit : JS.number;
  estimatedSystemCost : JS.number;
  paybackPeriod : JS.number;
  roi25Years : JS.number;
  co2SavedAnnually : JS.number;
  co2Saved25Years : JS.number;
  metadata : CalculationMetadata
}.

Record LeadContact : Type := {
  email : string;
  phone : option string;
  name : option string
}.

Inductive LeadCategory : Type := hot | warm | cool.

(** [value: boolean | number]. *)
Inductive FactorValue : Type :=
| NumberValue (n : JS.number)
| BooleanValue (b : bool).

(** [factorName] is the factor's [name]. *)
Record LeadScoreFactor : Type := {
  factorName : string;
  value : FactorValue;
  points : JS.number
}.

Record LeadScore : Type := {
  totalScore : JS.number;
  category : LeadCategory;
  factors : list LeadScoreFactor
}.

Record UKEnergyConfig : Type := {
  electricityRatePence : Q;
  segExportRatePence : Q;
  standingChargePence : Q;
  lastUpdated : string;
  source : string
}.

Record SystemCostConfig : Type := {
  costPerKwpSmall : Q;
  costPerKwpMedium : Q;
  costPerKwpLarge : Q;
  smallMaxKwp : Q;
  mediumMaxKwp : Q
}.

Record SolarConfig : Type := {
  gridCarbonFactor : Q;
  systemLossFactor : Q;
  panelAreaPerKwp : Q;
  annualDegradation : Q;
  panelWattage : Q;
  orientationFactors : list (string * Q);
  selfConsumptionFactors : list (string * Q);
  ukAverageIrradiance : Q
}.

(* ================================================================== *)
(** ** Constants ([lib/solar/constants.ts]) *)
(* ================================================================== *)

Definition UK_ENERGY_CONFIG : UKEnergyConfig := {|
  electricityRatePence := 27.69;
  segExportRatePence := 15;
  standingChargePence := 54.7;
  lastUpdated := "2026-01-01";
  source := "Ofgem Price Cap Q1 2026"
|}.

Definition SYSTEM_COST_CONFIG : SystemCostConfig := {|
  costPerKwpSmall := 1500;
  costPerKwpMedium := 1300;
  costPerKwpLarge := 1100;
  smallMaxKwp := 3;
  mediumMaxKwp := 6
|}.

Definition SOLAR_CONFIG : SolarConfig := {|
  gridCarbonFactor := 0.233;
  systemLossFactor := 0.86;
  panelAreaPerKwp := 5;
  annualDegradation := 0.005;
  panelWattage := 400;
  orientationFactors :=
    [("S", 1.0); ("SE", 0.95); ("SW", 0.95); ("E", 0.85); ("W", 0.85);
     ("NE", 0.7); ("NW", 0.7); ("N", 0.55); ("flat", 0.9)];
  selfConsumptionFactors :=
    [("always", 0.45); ("daytime", 0.5); ("evening", 0.25); ("variable", 0.35)];
  ukAverageIrradiance := 1000
|}.

Definition REGIONAL_IRRADIANCE : list (string * Q) :=
  [("South West", 1100); ("South East", 1050); ("London", 1000);
   ("West Midlands", 950); ("East Midlands", 950); ("East of England", 1000);
   ("North West", 900); ("North East", 900); ("Yorkshire", 920);
   ("Wales", 950);
   ("Scotland South", 900); ("Scotland Central", 880); ("Scotland North", 850);
   ("Scottish Highlands", 800);
   ("Northern Ireland", 900);
   ("default", 950)].

Definition PITCH_FACTORS : list (Z * Q) :=
  [(0%Z, 0.9); (10%Z, 0.94); (15%Z, 0.96); (20%Z, 0.98); (25%Z, 0.99);
   (30%Z, 1.0); (35%Z, 1.0); (40%Z, 0.99); (45%Z, 0.97); (50%Z, 0.94);
   (60%Z, 0.88); (70%Z, 0.8); (80%Z, 0.7); (90%Z, 0.55)].

(** [PITCH_FACTORS[k]] as an operand. *)
Definition pitch_factor_at (k : Z) : JS.number :=
  JS.to_number (JS.lookup_int k PITCH_FACTORS).

(** The loop of [getPitchFactor] over [pitches[i]], [pitches[i + 1]]: the
    first pair that brackets the pitch returns, [None] when the loop falls
    through. *)
Fixpoint pitch_scan (clampedPitch : JS.number) (pitches : list Z) : option JS.number :=
  match pitches with
  | lower :: (upper :: _) as rest =>
      if (clampedPitch >=? inject_Z lower) && (clampedPitch <=? inject_Z upper)
      then
        let ratio := (clampedPitch - inject_Z lower) / (inject_Z upper - inject_Z lower) in
        Some (pitch_factor_at lower + ratio * (pitch_factor_at upper - pitch_factor_at lower))
      else pitch_scan clampedPitch rest
  | _ => None
  end.

Definition getPitchFactor (pitch : JS.number) : JS.number :=
  let clampedPitch := JS.max 0 (JS.min 90 pitch) in
  let pitches := JS.sort_asc (map fst PITCH_FACTORS) in
  match pitch_scan clampedPitch pitches with
  | Some factor => factor
  | None => pitch_factor_at 35
  end.

(* ================================================================== *)
(** ** The calculation engine ([lib/solar/calculations.ts]) *)
(* ================================================================== *)

Definition calculateMaxSystemSize (roofArea : JS.number) : JS.number :=
  let maxKwp := roofArea / panelAreaPerKwp SOLAR_CONFIG in
  JS.round (maxKwp * 10) / 10.

Definition calculateRecommendedSize
    (annualUsage irradiance orientationFactor pitchFactor shadingFactor : JS.number)
    : JS.number :=
  let effectiveIrradiance :=
    irradiance * orientationFactor * pitchFactor * shadingFactor
    * systemLossFactor SOLAR_CONFIG in
  let targetGeneration := annualUsage * 0.9 in
  let peakSunHours := effectiveIrradiance in
  let recommendedKwp := targetGeneration / peakSunHours in
  JS.round (recommendedKwp * 10) / 10.

Definition determineFinalSystemSize (recommendedKwp maxKwp : JS.number) : JS.number :=
  let finalKwp := JS.min recommendedKwp maxKwp in
  JS.round (finalKwp * 2) / 2.

Definition calculatePanelCount (systemSizeKwp : JS.number) : JS.number :=
  JS.ceil ((systemSizeKwp * 1000) / panelWattage SOLAR_CONFIG).

Definition calculateAnnualGeneration
    (systemSizeKwp irradiance orientationFactor pitchFactor shadingFactor : JS.number)
    : JS.number :=
  let generation :=
    systemSizeKwp * irradiance * orientationFactor * pitchFactor * shadingFactor
    * systemLossFactor SOLAR_CONFIG in
  JS.round generation.

Definition getMonthlyDistribution : list Q :=
  [0.03; 0.05; 0.08; 0.1; 0.12; 0.13; 0.13; 0.11; 0.09; 0.07; 0.05; 0.04].

Definition monthNames : list string :=
  ["January"; "February"; "March"; "April"; "May"; "June"; "July"; "August";
   "September"; "October"; "November"; "December"].

Definition calculateMonthlyGeneration
    (annualGeneration selfConsumptionRatio : JS.number) : list MonthlyGeneration :=
  let distribution := getMonthlyDistribution in
  JS.mapi
    (fun (fraction : Q) (index : nat) =>
       let generationKwh := JS.round (annualGeneration * fraction) in
       let selfConsumedKwh := JS.round (generationKwh * selfConsumptionRatio) in
       let exportedKwh := generationKwh - selfConsumedKwh in
       {| month := (index + 1)%nat;
          monthName := nth index monthNames "";
          generationKwh := generationKwh;
          m_selfConsumedKwh := selfConsumedKwh;
          m_exportedKwh := exportedKwh |})
    distribution.

(** [SOLAR_CONFIG.selfConsumptionFactors[occupancy]]: no default entry. *)
Definition calculateSelfConsumption (occupancy : string) : option JS.number :=
  JS.lookup occupancy (selfConsumptionFactors SOLAR_CONFIG).

(** [electricityRatePence: number = UK_ENERGY_CONFIG.electricityRatePence]: the
    default stands in when the argument is [undefined]. *)
Definition calculateAnnualSavings
    (selfConsumedKwh : JS.number) (electricityRate : option JS.number) : JS.number :=
  let electricityRatePence :=
    JS.default_argument electricityRate (electricityRatePence UK_ENERGY_CONFIG) in
  let savingsPence := selfConsumedKwh * electricityRatePence in
  JS.round savingsPence / 100.

(** [exportRatePence: number = UK_ENERGY_CONFIG.segExportRatePence]. *)
Definition calculateExportEarnings
    (exportedKwh : JS.number) (exportRate : option JS.number) : JS.number :=
  let exportRatePence :=
    JS.default_argument exportRate (segExportRatePence UK_ENERGY_CONFIG) in
  let earningsPence := exportedKwh * exportRatePence in
  JS.round earningsPence / 100.

Definition calculateSystemCost (systemSizeKwp : JS.number) : JS.number :=
  let costPerKwp : Q :=
    if systemSizeKwp <=? smallMaxKwp SYSTEM_COST_CONFIG
    then costPerKwpSmall SYSTEM_COST_CONFIG
    else if systemSizeKwp <=? mediumMaxKwp SYSTEM_COST_CONFIG
    then costPerKwpMedium SYSTEM_COST_CONFIG
    else costPerKwpLarge SYSTEM_COST_CONFIG in
  JS.round (systemSizeKwp * costPerKwp).

Definition calculatePaybackPeriod (systemCost annualBenefit : JS.number) : JS.number :=
  if annualBenefit <=? 0 then JS.PosInf
  else JS.round ((systemCost / annualBenefit) * 10) / 10.

(** The years the two 25-year loops run over: [year = 1; year <= 25]. *)
Definition years25 : list nat := List.seq 1 25.

(** One turn of the loop of [calculateROI25Years]. *)
Definition roi_year
    (annualGeneration selfConsumptionRatio electricityRatePence exportRatePence : JS.number)
    (totalBenefit : JS.number) (year : nat) : JS.number :=
  let degradation : Q := annualDegradation SOLAR_CONFIG in
  let yearGeneration := annualGeneration * JS.pow (1 - degradation) (year - 1) in
  let selfConsumed := yearGeneration * selfConsumptionRatio in
  let exported := yearGeneration - selfConsumed in
  let savings := (selfConsumed * electricityRatePence) / 100 in
  let exportEarnings := (exported * exportRatePence) / 100 in
  totalBenefit + (savings + exportEarnings).

(** [totalBenefit] when the loop of [calculateROI25Years] ends. *)
Definition totalBenefit25
    (annualGeneration selfConsumptionRatio electricityRatePence exportRatePence : JS.number)
    : JS.number :=
  fold_left
    (roi_year annualGeneration selfConsumptionRatio electricityRatePence exportRatePence)
    years25 0.

Definition calculateROI25Years
    (annualGeneration selfConsumptionRatio electricityRatePence exportRatePence
     systemCost : JS.number) : JS.number :=
  let totalBenefit :=
    totalBenefit25 annualGeneration selfConsumptionRatio electricityRatePence
      exportRatePence in
  JS.round (totalBenefit - systemCost).

Definition calculateCO2Savings (annualGenerationKwh : JS.number) : JS.number :=
  JS.round (annualGenerationKwh * gridCarbonFactor SOLAR_CONFIG).

Definition calculateCO2Savings25Years (annualGeneration : JS.number) : JS.number :=
  let degradation : Q := annualDegradation SOLAR_CONFIG in
  let totalGeneration :=
    fold_left
      (fun (totalGeneration : JS.number) (year : nat) =>
         totalGeneration + annualGeneration * JS.pow (1 - degradation) (year - 1))
      years25 0 in
  JS.round (totalGeneration * gridCarbonFactor SOLAR_CONFIG).

(** [SOLAR_CONFIG.orientationFactors[orientation]]: no default entry. *)
Definition getOrientationFactor (orientation : string) : option JS.number :=
  JS.lookup orientation (orientationFactors SOLAR_CONFIG).

(** [REGIONAL_IRRADIANCE[region] || REGIONAL_IRRADIANCE.default]. *)
Definition getRegionalIrradiance (region : string) : option JS.number :=
  JS.or (JS.lookup region REGIONAL_IRRADIANCE) (JS.lookup "default" REGIONAL_IRRADIANCE).

(** The main pipeline.  [now] is what [new Date().toISOString()] reads. *)
Definition calculateSolarEstimate
    (now : string) (inputs : CalculatorInputs) (irradiance : option Q)
    : CalculatorResults :=
  let orientationFactor :=
    JS.to_number (getOrientationFactor (orientation_key (roofOrientation inputs))) in
  let pitchFactor := getPitchFactor (roofPitch inputs) in
  let shadingFactor : JS.number := shadingFactor inputs in
  let irradiance := option_map JS.Fin irradiance in
  let usedIrradiance :=
    JS.to_number (JS.or irradiance (Some (JS.Fin (ukAverageIrradiance SOLAR_CONFIG)))) in
  let irradianceSource :=
    match irradiance with
    | Some i => if JS.truthy i then PVGIS else UK_AVERAGE
    | None => UK_AVERAGE
    end in
  let electricityRate :=
    JS.to_number
      (JS.or (option_map JS.Fin (electricityUnitRate inputs))
             (Some (JS.Fin (electricityRatePence UK_ENERGY_CONFIG)))) in
  let exportRate :=
    JS.to_number
      (JS.or (option_map JS.Fin (exportTariffRate inputs))
             (Some (JS.Fin (segExportRatePence UK_ENERGY_CONFIG)))) in
  let maxSize := calculateMaxSystemSize (roofArea inputs) in
  let recommendedSize :=
    calculateRecommendedSize (annualElectricityUsage inputs) usedIrradiance
      orientationFactor pitchFactor shadingFactor in
  let finalSize := determineFinalSystemSize recommendedSize maxSize in
  let panelCount := calculatePanelCount finalSize in
  let annualGeneration :=
    calculateAnnualGeneration finalSize usedIrradiance orientationFactor pitchFactor
      shadingFactor in
  let selfConsumptionRatio :=
    JS.to_number (calculateSelfConsumption (occupancy_key (homeOccupancy inputs))) in
  let selfConsumedKwh := JS.round (annualGeneration * selfConsumptionRatio) in
  let exportedKwh := annualGeneration - selfConsumedKwh in
  let monthlyGeneration := calculateMonthlyGeneration annualGeneration selfConsumptionRatio in
  let annualSavings := calculateAnnualSavings selfConsumedKwh (Some electricityRate) in
  let annualExportEarnings := calculateExportEarnings exportedKwh (Some exportRate) in
  let totalAnnualBenefit := annualSavings + annualExportEarnings in
  let systemCost := calculateSystemCost finalSize in
  let paybackPeriod := calculatePaybackPeriod systemCost totalAnnualBenefit in
  let roi25Years :=
    calculateROI25Years annualGeneration selfConsumptionRatio electricityRate exportRate
      systemCost in
  let co2SavedAnnually := calculateCO2Savings annualGeneration in
  let co2Saved25Years := calculateCO2Savings25Years annualGeneration in
  let metadata := {|
    calculatedAt := now;
    irradianceUsed := usedIrradiance;
    irradianceSource := irradianceSource;
    electricityRate := electricityRate;
    exportRate := exportRate;
    systemLossFactorUsed := systemLossFactor SOLAR_CONFIG;
    orientationFactor := orientationFactor |} in
  {| recommendedSystemSize := finalSize;
     numberOfPanels := panelCount;
     estimatedAnnualGeneration := annualGeneration;
     monthlyGeneration := monthlyGeneration;
     selfConsumptionRatio := selfConsumptionRatio;
     selfConsumedKwh := selfConsumedKwh;
     exportedKwh := exportedKwh;
     annualSavings := annualSavings;
     annualExportEarnings := annualExportEarnings;
     totalAnnualBenefit := totalAnnualBenefit;
     estimatedSystemCost := systemCost;
     paybackPeriod := paybackPeriod;
     roi25Years := roi25Years;
     co2SavedAnnually := co2SavedAnnually;
     co2Saved25Years := co2Saved25Years;
     metadata := metadata |}.

(* ================================================================== *)
(** ** The lead scorer ([lib/leads/scoring.ts]) *)
(* ================================================================== *)

Record ScoreThresholds : Type := {
  threshold_hot : Q;
  threshold_warm : Q
}.

Definition SCORE_THRESHOLDS : ScoreThresholds := {|
  threshold_hot := 70;
  threshold_warm := 40
|}.

Record ScoringWeights : Type := {
  w_systemSize : Q;
  w_paybackPeriod : Q;
  w_annualSavings : Q;
  w_roofArea : Q;
  w_phoneProvided : Q;
  w_nameProvided : Q;
  w_selfConsumption : Q;
  w_usageLevel : Q
}.

Definition SCORING_WEIGHTS : ScoringWeights := {|
  w_systemSize := 20;
  w_paybackPeriod := 20;
  w_annualSavings := 15;
  w_roofArea := 10;
  w_phoneProvided := 15;
  w_nameProvided := 5;
  w_selfConsumption := 10;
  w_usageLevel := 5
|}.

Definition systemSizePoints (results : CalculatorResults) : JS.number :=
  JS.min (w_systemSize SCORING_WEIGHTS)
    (JS.round ((recommendedSystemSize results / 6) * w_systemSize SCORING_WEIGHTS)).

Definition paybackScore (results : CalculatorResults) : JS.number :=
  if paybackPeriod results <=? 7 then JS.Fin (w_paybackPeriod SCORING_WEIGHTS)
  else if paybackPeriod results >=? 15 then 0
  else JS.round (((15 - paybackPeriod results) / 8) * w_paybackPeriod SCORING_WEIGHTS).

Definition savingsPoints (results : CalculatorResults) : JS.number :=
  JS.min (w_annualSavings SCORING_WEIGHTS)
    (JS.round ((totalAnnualBenefit results / 500) * w_annualSavings SCORING_WEIGHTS)).

Definition phonePoints (contact : LeadContact) : JS.number :=
  if JS.truthy_string (phone contact) then JS.Fin (w_phoneProvided SCORING_WEIGHTS) else 0.

Definition namePoints (contact : LeadContact) : JS.number :=
  if JS.truthy_string (name contact) then JS.Fin (w_nameProvided SCORING_WEIGHTS) else 0.

Definition selfConsumptionPoints (results : CalculatorResults) : JS.number :=
  JS.round (selfConsumptionRatio results * w_selfConsumption SCORING_WEIGHTS).

Definition roofAreaPoints (results : CalculatorResults) : JS.number :=
  if numberOfPanels results >=? 12 then JS.Fin (w_roofArea SCORING_WEIGHTS)
  else JS.round ((numberOfPanels results / 12) * w_roofArea SCORING_WEIGHTS).

Definition usagePoints (results : CalculatorResults) : JS.number :=
  JS.min (w_usageLevel SCORING_WEIGHTS)
    (JS.round ((estimatedAnnualGeneration results / 4000) * w_usageLevel SCORING_WEIGHTS)).

Definition calculateLeadScore (results : CalculatorResults) (contact : LeadContact)
    : LeadScore :=
  let factors : list LeadScoreFactor := [] in
  let totalScore : JS.number := 0 in
  (* 1. System size *)
  let factors := (factors ++
    [{| factorName := "System Size";
        value := NumberValue (recommendedSystemSize results);
        points := systemSizePoints results |}])%list in
  let totalScore := totalScore + systemSizePoints results in
  (* 2. Payback period *)
  let factors := (factors ++
    [{| factorName := "Payback Period";
        value := NumberValue (paybackPeriod results);
        points := paybackScore results |}])%list in
  let totalScore := totalScore + paybackScore results in
  (* 3. Annual savings *)
  let factors := (factors ++
    [{| factorName := "Annual Savings";
        value := NumberValue (totalAnnualBenefit results);
        points := savingsPoints results |}])%list in
  let totalScore := totalScore + savingsPoints results in
  (* 4. Phone number provided *)
  let factors := (factors ++
    [{| factorName := "Phone Provided";
        value := BooleanValue (JS.truthy_string (phone contact));
        points := phonePoints contact |}])%list in
  let totalScore := totalScore + phonePoints contact in
  (* 5. Name provided *)
  let factors := (factors ++
    [{| factorName := "Name Provided";
        value := BooleanValue (JS.truthy_string (name contact));
        points := namePoints contact |}])%list in
  let totalScore := totalScore + namePoints contact in
  (* 6. Self-consumption ratio *)
  let factors := (factors ++
    [{| factorName := "Self-Consumption";
        value := NumberValue (selfConsumptionRatio results);
        points := selfConsumptionPoints results |}])%list in
  let totalScore := totalScore + selfConsumptionPoints results in
  (* 7. Roof area adequacy *)
  let factors := (factors ++
    [{| factorName := "Roof Area";
        value := NumberValue (numberOfPanels results);
        points := roofAreaPoints results |}])%list in
  let totalScore := totalScore + roofAreaPoints results in
  (* 8. Usage level *)
  let factors := (factors ++
    [{| factorName := "Usage Level";
        value := NumberValue (estimatedAnnualGeneration results);
        points := usagePoints results |}])%list in
  let totalScore := totalScore + usagePoints results in
  let category :=
    if totalScore >=? threshold_hot SCORE_THRESHOLDS then hot
    else if totalScore >=? threshold_warm SCORE_THRESHOLDS then warm
    else cool in
  {| totalScore := totalScore; category := category; factors := factors |}.

(* ================================================================== *)
(** ** Vocabulary of the specification *)
(* ================================================================== *)

Local Open Scope Q_scope.

(** [v] is [x] rounded to one decimal place. *)
Definition one_decimal_of (x v : Q) : Prop :=
  (exists k : Z, v == inject_Z k / 10) /\ x - (1 # 20) < v /\ v <= x + (1 # 20).

(** [v] is a whole number of [unit]s as a double holds it: within 10^-6 of
    one. *)
Definition near_multiple (unit v : Q) : Prop :=
  exists k : Z, Qabs (v - inject_Z k * unit) <= 1 # 1000000.

(** [v] is [x] rounded to one decimal place as binary64 arithmetic delivers
    it: a whole number of tenths within 0.051 of [x].  Exact arithmetic
    stays within 0.05; the code returns the neighbouring tenth when the
    computed [x] falls on the other side of a tie. *)
Definition one_decimal_near (x v : Q) : Prop :=
  near_multiple 0.1 v /\ Qabs (v - x) <= 0.051.

(** [v] pounds is [pence] rounded to whole pence, in the same sense. *)
Definition whole_pence_near (pence v : Q) : Prop :=
  near_multiple 0.01 v /\ Qabs (v - pence / 100) <= 0.0051.

(** [v] is the multiple of 0.5 nearest to [x], a tie going up. *)
Definition nearest_half_up (x v : Q) : Prop :=
  (exists k : Z, v == inject_Z k / 2) /\ x - (1 # 4) < v /\ v <= x + (1 # 4).

(** Neighbouring anchors of the pitch-factor table, with their values. *)
Definition anchor_pairs : list ((Z * Q) * (Z * Q)) :=
  combine PITCH_FACTORS (tl PITCH_FACTORS).

Definition strictly_between (a b v : Q) : Prop :=
  (a < v /\ v < b) \/ (b < v /\ v < a).

(** [v] is not outside [a] and [b]. *)
Definition between (a b v : Q) : Prop :=
  (a <= v /\ v <= b) \/ (b <= v /\ v <= a).

(** The value [getPitchFactor] returns from the pair [lower], [upper]. *)
Definition interpolate (lower upper : Z) (c : Q) : JS.number :=
  (pitch_factor_at lower
   + ((JS.Fin c - JS.Fin (inject_Z lower))
      / (JS.Fin (inject_Z upper) - JS.Fin (inject_Z lower)))
     * (pitch_factor_at upper - pitch_factor_at lower))%js.

Fixpoint increasing (l : list Z) : Prop :=
  match l with
  | a :: (b :: _) as rest => (a < b)%Z /\ increasing rest
  | _ => True
  end.

Definition finite_at (k : Z) : Prop := exists f : Q, pitch_factor_at k = JS.Fin f.


(** The first-year benefit without degradation, in pounds. *)
Definition annualBenefit
    (annualGeneration selfConsumptionRatio electricityRatePence exportRatePence : Q) : Q :=
  let selfConsumed := annualGeneration * selfConsumptionRatio in
  let exported := annualGeneration - selfConsumed in
  (selfConsumed * electricityRatePence + exported * exportRatePence) / 100.

(** The sum of the degradation factors [base ^ (year - 1)] over the years. *)
Definition degradation_sum (base : Q) (years : list nat) : Q :=
  fold_right (fun year s => JS.pow_nat base (year - 1) + s) 0 years.

Definition factor_order : list string :=
  ["System Size"; "Payback Period"; "Annual Savings"; "Phone Provided";
   "Name Provided"; "Self-Consumption"; "Roof Area"; "Usage Level"].

(** The ranges the result type documents for what the scorer reads: sizes,
    money, counts and energy are not negative, the self-consumption ratio is
    a fraction, and the payback period is a number or the infinite sentinel. *)
Definition within_documented_ranges (results : CalculatorResults) : bool :=
  (0 <=? recommendedSystemSize results)%js
  && negb (JS.is_nan (paybackPeriod results))
  && (0 <=? totalAnnualBenefit results)%js
  && (0 <=? selfConsumptionRatio results)%js
  && (selfConsumptionRatio results <=? 1)%js
  && (0 <=? numberOfPanels results)%js
  && (0 <=? estimatedAnnualGeneration results)%js.

(** A value the [||] of the overrides falls through: [undefined] or [0]. *)
Definition falsy (v : option Q) : bool :=
  match v with
  | Some q => negb (JS.truthy (JS.Fin q))
  | None => true
  end.

(** [{ ...inputs, electricityUnitRate, exportTariffRate }]. *)
Definition with_overrides (inputs : CalculatorInputs) (unitRate exportRate : option Q)
    : CalculatorInputs := {|
  postcode := postcode inputs;
  latitude := latitude inputs;
  longitude := longitude inputs;
  roofOrientation := roofOrientation inputs;
  roofPitch := roofPitch inputs;
  roofArea := roofArea inputs;
  shadingFactor := shadingFactor inputs;
  annualElectricityUsage := annualElectricityUsage inputs;
  homeOccupancy := homeOccupancy inputs;
  electricityUnitRate := unitRate;
  exportTariffRate := exportRate
|}.

(** [validInputs] of [calculations.test.ts]. *)
Definition validInputs : CalculatorInputs := {|
  postcode := "SW1A 1AA";
  latitude := 51.5;
  longitude := -0.14;
  roofOrientation := S;
  roofPitch := 35;
  roofArea := 30;
  shadingFactor := 1.0;
  annualElectricityUsage := 3500;
  homeOccupancy := daytime;
  electricityUnitRate := None;
  exportTariffRate := None
|}.

(** [createMockResults] of [scoring.test.ts], with the six fields the scorer
    reads as arguments. *)
Definition scored_results
    (size payback benefit panels generation ratio : JS.number) : CalculatorResults := {|
  recommendedSystemSize := size;
  numberOfPanels := panels;
  estimatedAnnualGeneration := generation;
  monthlyGeneration :=
    JS.mapi
      (fun (monthName : string) (i : nat) =>
         {| month := (i + 1)%nat; monthName := monthName; generationKwh := 300;
            m_selfConsumedKwh := 135; m_exportedKwh := 165 |})
      monthNames;
  selfConsumptionRatio := ratio;
  selfConsumedKwh := 1620;
  exportedKwh := 1980;
  annualSavings := 448;
  annualExportEarnings := 297;
  totalAnnualBenefit := benefit;
  estimatedSystemCost := 5200;
  paybackPeriod := payback;
  roi25Years := 12000;
  co2SavedAnnually := 839;
  co2Saved25Years := 18000;
  metadata := {|
    calculatedAt := "2026-01-15T09:00:00.000Z";
    irradianceUsed := 1000;
    irradianceSource := PVGIS;
    electricityRate := 27.69;
    exportRate := 15;
    systemLossFactorUsed := 0.86;
    orientationFactor := 1.0 |}
|}.

Definition example_results : CalculatorResults := scored_results 6 6 745 15 5000 0.5.

Definition contact_full : LeadContact :=
  {| email := "test@example.com"; phone := Some "07700900123"; name := Some "John Smith" |}.

Definition contact_email_only : LeadContact :=
  {| email := "test@example.com"; phone := None; name := None |}.

(* ================================================================== *)
(** ** The calculate endpoint ([app/api/calculate/route.ts]) *)
(* ================================================================== *)

(** A value as [request.json()] delivers it.  JSON has no [NaN]: a number is
    finite, or an infinity when its literal overflows. *)
Inductive json : Type :=
| JUndefined
| JNull
| JBoolean (b : bool)
| JNumber (q : Q)
| JInfinity (positive : bool)
| JString (s : string)
| JObject.

(** [inputs] of the request body before anything is known of its fields. *)
Record RawInputs : Type := {
  raw_postcode : json;
  raw_latitude : json;
  raw_longitude : json;
  raw_roofOrientation : json;
  raw_roofPitch : json;
  raw_roofArea : json;
  raw_shadingFactor : json;
  raw_annualElectricityUsage : json;
  raw_homeOccupancy : json;
  raw_electricityUnitRate : json;
  raw_exportTariffRate : json
}.

(** [!v]. *)
Definition json_falsy (v : json) : bool :=
  match v with
  | JUndefined | JNull | JBoolean false | JString EmptyString => true
  | JNumber q => Qeq_bool q 0
  | _ => false
  end.

(** [typeof v !== 'string']. *)
Definition not_a_string (v : json) : bool :=
  match v with JString _ => false | _ => true end.

(** [typeof v !== 'number' || v < lo || v > hi]. *)
Definition not_a_number_within (lo hi : Q) (v : json) : bool :=
  match v with
  | JNumber q => negb (Qle_bool lo q) || negb (Qle_bool q hi)
  | JInfinity _ => true
  | _ => true
  end.

(** [list.includes(v)] for a list of strings. *)
Definition includes_string (list : list string) (v : json) : bool :=
  match v with
  | JString s => existsb (String.eqb s) list
  | _ => false
  end.

(** [list.includes(v)] for a list of numbers. *)
Definition includes_number (list : list Q) (v : json) : bool :=
  match v with
  | JNumber q => existsb (Qeq_bool q) list
  | _ => false
  end.

Record InputValidation : Type := {
  valid : bool;
  error : option string
}.

Definition validOrientations : list string :=
  ["N"; "NE"; "E"; "SE"; "S"; "SW"; "W"; "NW"; "flat"].

Definition validShading : list Q := [0; 0.5; 0.75; 0.9; 1.0].

Definition validOccupancy : list string := ["always"; "daytime"; "evening"; "variable"].

Definition validateInputs (inputs : RawInputs) : InputValidation :=
  if json_falsy (raw_postcode inputs) || not_a_string (raw_postcode inputs)
  then {| valid := false; error := Some "Postcode is required" |}
  else if not_a_number_within 49 61 (raw_latitude inputs)
  then {| valid := false; error := Some "Invalid latitude for UK location" |}
  else if not_a_number_within (-8) 2 (raw_longitude inputs)
  then {| valid := false; error := Some "Invalid longitude for UK location" |}
  else if negb (includes_string validOrientations (raw_roofOrientation inputs))
  then {| valid := false; error := Some "Invalid roof orientation" |}
  else if not_a_number_within 0 90 (raw_roofPitch inputs)
  then {| valid := false; error := Some "Roof pitch must be between 0 and 90 degrees" |}
  else if not_a_number_within 5 500 (raw_roofArea inputs)
  then {| valid := false; error := Some "Roof area must be between 5 and 500 m²" |}
  else if negb (includes_number validShading (raw_shadingFactor inputs))
  then {| valid := false; error := Some "Invalid shading factor" |}
  else if not_a_number_within 500 50000 (raw_annualElectricityUsage inputs)
  then {| valid := false;
          error := Some "Annual electricity usage must be between 500 and 50,000 kWh" |}
  else if negb (includes_string validOccupancy (raw_homeOccupancy inputs))
  then {| valid := false; error := Some "Invalid home occupancy type" |}
  else {| valid := true; error := None |}.

(* ================================================================== *)
(** ** The PVGIS client ([lib/solar/pvgis.ts]) *)
(* ================================================================== *)

Module Pvgis.



(** [PVGISResponse] of [types/solar.ts]: what the callers of the fetch read. *)
Record PVGISResponse : Type := {
  r_success : bool;
  r_annualIrradiance : option JS.number;
  r_monthlyIrradiance : option (list JS.number);
  r_error : option string
}.


(** Truthiness of a number that may be [undefined]. *)
Definition truthy_number (v : option JS.number) : bool :=
  match v with
  | Some a => JS.truthy a
  | None => false
  end.




(** [REGIONAL_IRRADIANCE[region] || REGIONAL_IRRADIANCE.default]. *)
Definition getRegionalIrradianceFallback (region : string) : option JS.number :=
  JS.or (JS.lookup region REGIONAL_IRRADIANCE) (JS.lookup "default" REGIONAL_IRRADIANCE).

(** [getIrradianceValue] after its [await]: [result] is what
    [fetchPVGISIrradiance] resolved to. *)
Definition getIrradianceValue (result : PVGISResponse) (region : option string)
    : JS.number :=
  if r_success result && truthy_number (r_annualIrradiance result)
  then JS.to_number (r_annualIrradiance result)
  else
    match region with
    | Some r =>
        if JS.truthy_string region then JS.to_number (getRegionalIrradianceFallback r)
        else JS.Fin (ukAverageIrradiance SOLAR_CONFIG)
    | None => JS.Fin (ukAverageIrradiance SOLAR_CONFIG)
    end.

Definition distribution : list Q :=
  [0.03; 0.05; 0.08; 0.1; 0.12; 0.13; 0.13; 0.11; 0.09; 0.07; 0.05; 0.04].


End Pvgis.

(* ================================================================== *)
(** ** The rate limiter of the leads endpoint ([app/api/leads/route.ts]) *)
(* ================================================================== *)

Module LeadsApi.

(** A value of [rateLimitStore]; the counter and the clock are integers. *)
Record RateRecord : Type := {
  count : Z;
  resetTime : Z
}.

(** [rateLimitStore], a [Map] from client address to its record. *)
Definition RateLimitStore : Type := list (string * RateRecord).

(** [Map.prototype.get]. *)
Fixpoint get (ip : string) (store : RateLimitStore) : option RateRecord :=
  match store with
  | [] => None
  | (key, record) :: rest => if String.eqb ip key then Some record else get ip rest
  end.

(** [Map.prototype.set]: the entry of an existing key is replaced in place. *)
Fixpoint set (ip : string) (record : RateRecord) (store : RateLimitStore)
    : RateLimitStore :=
  match store with
  | [] => [(ip, record)]
  | (key, old) :: rest =>
      if String.eqb ip key then (key, record) :: rest else (key, old) :: set ip record rest
  end.

(** [checkRateLimit]; [now] is what [Date.now()] reads.  [record.count++]
    writes through to the record the map holds. *)
Definition checkRateLimit (now : Z) (ip : string) (store : RateLimitStore)
    : bool * RateLimitStore :=
  match get ip store with
  | None => (true, set ip {| count := 1; resetTime := now + 3600000 |} store)
  | Some record =>
      if (now >? resetTime record)%Z
      then (true, set ip {| count := 1; resetTime := now + 3600000 |} store)
      else if (count record >=? 5)%Z then (false, store)
      else (true, set ip {| count := count record + 1; resetTime := resetTime record |} store)
  end.

(** A run of requests, each with its time and client address: the answers
    given to [ip], in order, and the store left behind. *)
Fixpoint answers (ip : string) (requests : list (Z * string)) (store : RateLimitStore)
    : list bool * RateLimitStore :=
  match requests with
  | [] => ([], store)
  | (now, client) :: rest =>
      let (allowed, store') := checkRateLimit now client store in
      let (tail, final) := answers ip rest store' in
      (if String.eqb client ip then allowed :: tail else tail, final)
  end.

End LeadsApi.

(* ================================================================== *)
(** ** Vocabulary of the further properties *)
(* ================================================================== *)

(** The product the recommended size divides by, without the loss factor. *)
Definition efficiency (irradiance orientationFactor pitchFactor shadingFactor : Q) : Q :=
  irradiance * orientationFactor * pitchFactor * shadingFactor.

(** [a < b] between finite numbers. *)
Definition fin_lt (a b : JS.number) : Prop :=
  match a, b with
  | JS.Fin x, JS.Fin y => x < y
  | _, _ => False
  end.

(** [v] is an amount of pounds with whole pence, nearest to [pence / 100]. *)
Definition whole_pence_of (pence v : Q) : Prop :=
  (exists k : Z, v == inject_Z k / 100) /\ pence / 100 - (1 # 200) < v
  /\ v <= pence / 100 + (1 # 200).


(** The orientation facing the other way east-west. *)
Definition mirror (o : RoofOrientation) : RoofOrientation :=
  match o with
  | E => W | W => E
  | NE => NW | NW => NE
  | SE => SW | SW => SE
  | other => other
  end.

(** [a] is a finite number that is not negative, or [Infinity]. *)
Definition not_negative (a : JS.number) : Prop :=
  match a with
  | JS.Fin x => 0 <= x
  | JS.PosInf => True
  | _ => False
  end.

(** An optional caller-supplied number that is absent or not negative. *)
Definition absent_or_not_negative (v : option Q) : Prop :=
  match v with
  | Some q => 0 <= q
  | None => True
  end.

(** An optional caller-supplied number that is absent, or not negative and
    at most [bound]. *)
Definition absent_or_within (bound : Q) (v : option Q) : Prop :=
  match v with
  | Some q => 0 <= q /\ q <= bound
  | None => True
  end.

(** A factor that is at most another, both between 0.001 and 10000. *)
Definition no_better (worse better : Q) : Prop :=
  (1 # 1000) <= worse /\ worse <= better /\ better <= 10000.

(** A region argument that is absent or not a property name inherited from
    [Object.prototype]. *)
Definition plain_region (region : option string) : Prop :=
  match region with
  | Some r => JS.inherited r = false
  | None => True
  end.

(** What [JSON.stringify] then [request.json()] make of an optional number. *)
Definition json_of_optional (v : option Q) : json :=
  match v with
  | Some q => JNumber q
  | None => JUndefined
  end.

(** The request body's [inputs] a client holding [inputs] sends. *)
Definition to_json (inputs : CalculatorInputs) : RawInputs := {|
  raw_postcode := JString (postcode inputs);
  raw_latitude := JNumber (latitude inputs);
  raw_longitude := JNumber (longitude inputs);
  raw_roofOrientation := JString (orientation_key (roofOrientation inputs));
  raw_roofPitch := JNumber (roofPitch inputs);
  raw_roofArea := JNumber (roofArea inputs);
  raw_shadingFactor := JNumber (shadingFactor inputs);
  raw_annualElectricityUsage := JNumber (annualElectricityUsage inputs);
  raw_homeOccupancy := JString (occupancy_key (homeOccupancy inputs));
  raw_electricityUnitRate := json_of_optional (electricityUnitRate inputs);
  raw_exportTariffRate := json_of_optional (exportTariffRate inputs)
|}.

(** [shading] is one of the five shading levels. *)
Definition shading_level (shading : Q) : Prop :=
  shading == 0 \/ shading == 0.5 \/ shading == 0.75 \/ shading == 0.9 \/ shading == 1.

(** The ranges the endpoint documents in its error messages. *)
Record accepted (raw : RawInputs) (inputs : CalculatorInputs) : Prop := {
  accepted_postcode : raw_postcode raw = JString (postcode inputs) /\ postcode inputs <> "";
  accepted_latitude :
    raw_latitude raw = JNumber (latitude inputs)
    /\ 49 <= latitude inputs /\ latitude inputs <= 61;
  accepted_longitude :
    raw_longitude raw = JNumber (longitude inputs)
    /\ -8 <= longitude inputs /\ longitude inputs <= 2;
  accepted_orientation :
    raw_roofOrientation raw = JString (orientation_key (roofOrientation inputs));
  accepted_pitch :
    raw_roofPitch raw = JNumber (roofPitch inputs)
    /\ 0 <= roofPitch inputs /\ roofPitch inputs <= 90;
  accepted_area :
    raw_roofArea raw = JNumber (roofArea inputs)
    /\ 5 <= roofArea inputs /\ roofArea inputs <= 500;
  accepted_shading :
    raw_shadingFactor raw = JNumber (shadingFactor inputs)
    /\ shading_level (shadingFactor inputs);
  accepted_usage :
    raw_annualElectricityUsage raw = JNumber (annualElectricityUsage inputs)
    /\ 500 <= annualElectricityUsage inputs /\ annualElectricityUsage inputs <= 50000;
  accepted_occupancy :
    raw_homeOccupancy raw = JString (occupancy_key (homeOccupancy inputs))
}.




(** One of the six fields the scorer reads is [NaN]. *)
Definition some_field_nan (results : CalculatorResults) : bool :=
  JS.is_nan (recommendedSystemSize results)
  || JS.is_nan (paybackPeriod results)
  || JS.is_nan (totalAnnualBenefit results)
  || JS.is_nan (selfConsumptionRatio results)
  || JS.is_nan (numberOfPanels results)
  || JS.is_nan (estimatedAnnualGeneration results).


(** The contact with the same email and nothing else. *)
Definition email_only (contact : LeadContact) : LeadContact :=
  {| email := email contact; phone := None; name := None |}.

(** The points a contact's details are worth. *)
Definition contact_bonus (contact : LeadContact) : Q :=
  (if JS.truthy_string (phone contact) then 15 else 0)
  + (if JS.truthy_string (name contact) then 5 else 0).



(** What a failed fetch resolves to. *)
Definition unavailable (message : string) : Pvgis.PVGISResponse := {|
  Pvgis.r_success := false;
  Pvgis.r_annualIrradiance := None;
  Pvgis.r_monthlyIrradiance := None;
  Pvgis.r_error := Some message
|}.

(** No record of [ip], or one whose window is over at [now]. *)
Definition window_over (now : Z) (ip : string) (store : LeadsApi.RateLimitStore) : Prop :=
  match LeadsApi.get ip store with
  | None => True
  | Some record => (LeadsApi.resetTime record < now)%Z
  end.

(** Every request of [ip] in [requests] is made no later than [deadline]. *)
Definition all_by (deadline : Z) (ip : string) (requests : list (Z * string)) : Prop :=
  Forall (fun request => snd request = ip -> (fst request <= deadline)%Z) requests.

(** The answers to the next [n] requests of a client with [used] requests
    counted in its window: yes while fewer than 5 are counted. *)
Definition quota (used : Z) (n : nat) : list bool :=
  map (fun k : nat => (used + Z.of_nat k <? 5)%Z) (List.seq 0 n).

(* ================================================================== *)
(** ** Rounding and finite arithmetic *)
(* ================================================================== *)

Lemma round_half_up_le (x : Q) : inject_Z (JS.round_half_up x) <= x + (1 # 2).
Proof. apply Qfloor_le. Qed.

Lemma round_half_up_gt (x : Q) : x - (1 # 2) < inject_Z (JS.round_half_up x).
Proof.
  unfold JS.round_half_up.
  pose proof (Qlt_floor (x + (1 # 2))) as H.
  rewrite inject_Z_plus in H. change (inject_Z 1) with 1 in H. lra.
Qed.

Lemma round_half_up_mono (x y : Q) :
  x <= y -> (JS.round_half_up x <= JS.round_half_up y)%Z.
Proof. intros H. apply Qfloor_resp_le. lra. Qed.

Lemma round_half_up_Z (z : Z) : JS.round_half_up (inject_Z z) = z.
Proof.
  unfold JS.round_half_up.
  assert (Hl : (z <= Qfloor (inject_Z z + (1 # 2)))%Z).
  { rewrite <- (Qfloor_Z z) at 1. apply Qfloor_resp_le. lra. }
  assert (Hu : (Qfloor (inject_Z z + (1 # 2)) < z + 1)%Z).
  { rewrite Zlt_Qlt. pose proof (Qfloor_le (inject_Z z + (1 # 2))).
    rewrite inject_Z_plus. change (inject_Z 1) with 1. lra. }
  lia.
Qed.

Lemma round_half_up_bounds (x : Q) (lo hi : Z) :
  inject_Z lo <= x -> x <= inject_Z hi ->
  inject_Z lo <= inject_Z (JS.round_half_up x)
  /\ inject_Z (JS.round_half_up x) <= inject_Z hi.
Proof.
  intros Hlo Hhi. rewrite <- !Zle_Qle. split.
  - rewrite <- (round_half_up_Z lo). apply round_half_up_mono; assumption.
  - rewrite <- (round_half_up_Z hi). apply round_half_up_mono; assumption.
Qed.

Lemma round_half_up_nonneg (x : Q) : 0 <= x -> 0 <= inject_Z (JS.round_half_up x).
Proof.
  intros H. change 0 with (inject_Z 0). rewrite <- Zle_Qle.
  rewrite <- (round_half_up_Z 0). apply round_half_up_mono. exact H.
Qed.

Lemma Qle_bool_false (x y : Q) : y < x -> Qle_bool x y = false.
Proof.
  intros H. destruct (Qle_bool x y) eqn:Hle; [| reflexivity].
  apply Qle_bool_iff in Hle. lra.
Qed.

Lemma Qle_bool_true (x y : Q) : x <= y -> Qle_bool x y = true.
Proof. apply Qle_bool_iff. Qed.


(** Operations on finite operands stay finite and are the rational ones. *)
Lemma add_fin (x y : Q) : (JS.Fin x + JS.Fin y)%js = JS.Fin (x + y).
Proof. reflexivity. Qed.

Lemma sub_fin (x y : Q) : (JS.Fin x - JS.Fin y)%js = JS.Fin (x + - y).
Proof. reflexivity. Qed.

Lemma mul_fin (x y : Q) : (JS.Fin x * JS.Fin y)%js = JS.Fin (x * y).
Proof. reflexivity. Qed.

Lemma div_fin (x y : Q) : ~ y == 0 -> (JS.Fin x / JS.Fin y)%js = JS.Fin (x / y).
Proof.
  intros Hy. unfold JS.div.
  destruct (Qeq_bool y 0) eqn:Hz; [| reflexivity].
  apply Qeq_bool_iff in Hz. contradiction.
Qed.

Lemma round_fin (x : Q) : JS.round (JS.Fin x) = JS.Fin (inject_Z (JS.round_half_up x)).
Proof. reflexivity. Qed.

Lemma leb_fin (x y : Q) : (JS.Fin x <=? JS.Fin y)%js = Qle_bool x y.
Proof. reflexivity. Qed.

Lemma leb_fin_true (x y : Q) : x <= y -> (JS.Fin x <=? JS.Fin y)%js = true.
Proof. intros H. apply Qle_bool_iff. exact H. Qed.

Lemma leb_fin_false (x y : Q) : y < x -> (JS.Fin x <=? JS.Fin y)%js = false.
Proof. intros H. rewrite leb_fin. apply Qle_bool_false. exact H. Qed.

Lemma geb_fin_true (x y : Q) : y <= x -> (JS.Fin x >=? JS.Fin y)%js = true.
Proof. intros H. unfold JS.geb. apply leb_fin_true. exact H. Qed.

Lemma min_fin (x y : Q) :
  JS.min (JS.Fin x) (JS.Fin y) = JS.Fin (if Qle_bool x y then x else y).
Proof. unfold JS.min. destruct (Qle_bool x y); reflexivity. Qed.

Lemma max_fin (x y : Q) :
  JS.max (JS.Fin x) (JS.Fin y) = JS.Fin (if Qle_bool x y then y else x).
Proof. unfold JS.max. destruct (Qle_bool x y); reflexivity. Qed.

Lemma pow_fin (x : Q) (n : nat) : JS.pow (JS.Fin x) n = JS.Fin (JS.pow_nat x n).
Proof. destruct n; reflexivity. Qed.

(** [lra] on rationals knows no division: quotients by a literal become
    products by its inverse. *)
Ltac inv_const :=
  unfold Qdiv in *;
  repeat match goal with
    | |- context [Qinv (Qmake ?n ?d)] =>
        let v := eval compute in (Qinv (Qmake n d)) in
        change (Qinv (Qmake n d)) with v
    | H : context [Qinv (Qmake ?n ?d)] |- _ =>
        let v := eval compute in (Qinv (Qmake n d)) in
        change (Qinv (Qmake n d)) with v in H
    end.

(** Pushes the operations of an expression over finite operands inside. *)
Ltac js_fin :=
  repeat first
    [ rewrite add_fin | rewrite sub_fin | rewrite mul_fin | rewrite round_fin
    | rewrite pow_fin | rewrite min_fin | rewrite max_fin
    | rewrite div_fin by (intro; lra) ].

(** What exact arithmetic gives is within the margins left for binary64. *)
Lemma near_multiple_exact (unit v : Q) (k : Z) :
  v == inject_Z k * unit -> near_multiple unit v.
Proof.
  intros Hv. exists k. apply Qabs_Qle_condition. rewrite Hv. split; lra.
Qed.

Lemma one_decimal_near_of (x v : Q) : one_decimal_of x v -> one_decimal_near x v.
Proof.
  intros ((k & Hk) & Hlo & Hhi). split.
  - apply (near_multiple_exact _ _ k). rewrite Hk. inv_const. lra.
  - apply Qabs_Qle_condition. split; lra.
Qed.

(** The integer within half a unit of [x], the upper half excluded, is what
    [x] rounds to. *)
Lemma round_half_up_eq (x : Q) (k : Z) :
  inject_Z k - (1 # 2) <= x -> x < inject_Z k + (1 # 2) -> JS.round_half_up x = k.
Proof.
  intros Hlo Hhi.
  pose proof (round_half_up_le x) as Hle.
  pose proof (round_half_up_gt x) as Hgt.
  assert (H1 : (JS.round_half_up x < k + 1)%Z).
  { rewrite Zlt_Qlt, inject_Z_plus. change (inject_Z 1) with 1. lra. }
  assert (H2 : (k - 1 < JS.round_half_up x)%Z).
  { rewrite Zlt_Qlt. unfold Z.sub. rewrite inject_Z_plus, inject_Z_opp.
    change (inject_Z 1) with 1. lra. }
  lia.
Qed.

(* ================================================================== *)
(** ** The repository's unit tests, on the model *)
(* ================================================================== *)

Example test_max_system_size :
  (calculateMaxSystemSize 30 === 6)%js /\ (calculateMaxSystemSize 27 === 5.4)%js
  /\ (calculateMaxSystemSize 33 === 6.6)%js /\ (calculateMaxSystemSize 5 === 1)%js.
Proof. repeat split; vm_compute; reflexivity. Qed.

Example test_final_system_size :
  (determineFinalSystemSize 4 6 === 4)%js /\ (determineFinalSystemSize 8 6 === 6)%js
  /\ (determineFinalSystemSize 3.3 6 === 3.5)%js
  /\ (determineFinalSystemSize 3.7 6 === 3.5)%js
  /\ (determineFinalSystemSize 3.8 6 === 4)%js.
Proof. repeat split; vm_compute; reflexivity. Qed.

Example test_panel_count :
  (calculatePanelCount 4 === 10)%js /\ (calculatePanelCount 3 === 8)%js.
Proof. repeat split; vm_compute; reflexivity. Qed.

Example test_annual_generation :
  (calculateAnnualGeneration 4 1000 1 1 1 === 3440)%js
  /\ (calculateAnnualGeneration 4 1000 1 1 0.75 === 2580)%js.
Proof. repeat split; vm_compute; reflexivity. Qed.

Example test_financial :
  (calculateAnnualSavings 100 (Some (JS.Fin 100)) === 100)%js
  /\ (calculateAnnualSavings 1500 None === 415.35)%js
  /\ (calculateExportEarnings 2000 (Some (JS.Fin 15)) === 300)%js
  /\ (calculateSystemCost 3 === 4500)%js /\ (calculateSystemCost 5 === 6500)%js
  /\ (calculateSystemCost 8 === 8800)%js
  /\ (calculatePaybackPeriod 6000 600 === 10)%js
  /\ calculatePaybackPeriod 6000 0 = JS.PosInf
  /\ calculatePaybackPeriod 6000 (-100) = JS.PosInf
  /\ (calculatePaybackPeriod 6500 600 === 10.8)%js.
Proof. repeat split; vm_compute; reflexivity. Qed.

Example test_provided_irradiance :
  let results := calculateSolarEstimate "2026-01-15T09:00:00.000Z" validInputs (Some 950) in
  irradianceUsed (metadata results) = JS.Fin 950
  /\ irradianceSource (metadata results) = PVGIS.
Proof. split; reflexivity. Qed.

Example test_custom_rates :
  let inputs := with_overrides validInputs (Some 30) (Some 20) in
  let results := calculateSolarEstimate "2026-01-15T09:00:00.000Z" inputs None in
  electricityRate (metadata results) = JS.Fin 30
  /\ exportRate (metadata results) = JS.Fin 20.
Proof. split; reflexivity. Qed.

Example test_warm_lead :
  let score :=
    calculateLeadScore (scored_results 4 10 500 10 3500 0.4) contact_email_only in
  (totalScore score === 57)%js /\ category score = warm.
Proof. split; vm_compute; reflexivity. Qed.

Example test_cool_lead :
  let score :=
    calculateLeadScore (scored_results 2 15 200 5 1500 0.25) contact_email_only in
  (totalScore score === 22)%js /\ category score = cool.
Proof. split; vm_compute; reflexivity. Qed.

(* ================================================================== *)
(** ** Table lookups *)
(* ================================================================== *)

Lemma lookup_cons_ne (key k : string) (v : Q) (rest : list (string * Q)) :
  key <> k -> JS.lookup key ((k, v) :: rest) = JS.lookup key rest.
Proof.
  intros Hne. cbn [JS.lookup].
  destruct (String.eqb key k) eqn:Hk; [| reflexivity].
  apply String.eqb_eq in Hk. contradiction.
Qed.

Lemma lookup_values_truthy (key : string) (table : list (string * Q)) :
  Forall (fun entry => ~ snd entry == 0) table ->
  forall v, JS.lookup key table = Some v -> JS.truthy v = true.
Proof.
  intros Hall. induction Hall as [| [k q] rest Hq _ IH]; intros v; cbn [JS.lookup].
  - discriminate.
  - destruct (String.eqb key k).
    + intros [= <-]. cbn [JS.truthy snd] in *.
      destruct (Qeq_bool q 0) eqn:Hz; [| reflexivity].
      apply Qeq_bool_iff in Hz. contradiction.
    + apply IH.
Qed.

(** A key found among the own properties of a table none of whose keys is
    an inherited name is not an inherited name. *)
Lemma lookup_own (key : string) (table : list (string * Q)) (v : JS.number) :
  Forall (fun entry => JS.inherited (fst entry) = false) table ->
  JS.lookup key table = Some v -> JS.inherited key = false.
Proof.
  intros Hall. induction Hall as [| [k q] rest Hk _ IH]; cbn [JS.lookup].
  - discriminate.
  - destruct (String.eqb key k) eqn:Heq.
    + intros _. apply String.eqb_eq in Heq. subst k. exact Hk.
    + exact IH.
Qed.

Lemma regional_keys_own :
  Forall (fun entry => JS.inherited (fst entry) = false) REGIONAL_IRRADIANCE.
Proof. unfold REGIONAL_IRRADIANCE. repeat constructor. Qed.

Lemma regional_values_nonzero :
  Forall (fun entry => ~ snd entry == 0) REGIONAL_IRRADIANCE.
Proof.
  unfold REGIONAL_IRRADIANCE. repeat constructor; cbn [snd]; intros H; discriminate H.
Qed.

Lemma orientation_factor_enumerated (o : RoofOrientation) :
  exists f : Q,
    getOrientationFactor (orientation_key o) = Some (JS.Fin f) /\ 0 < f /\ f <= 1.
Proof.
  destruct o; eexists; (split; [reflexivity | split; [reflexivity | discriminate]]).
Qed.

Lemma self_consumption_enumerated (o : HomeOccupancy) :
  exists f : Q,
    calculateSelfConsumption (occupancy_key o) = Some (JS.Fin f) /\ 0 < f /\ f < 1.
Proof.
  destruct o; eexists; (split; [reflexivity | split; reflexivity]).
Qed.

(** [override || fallback] is the fallback or a non-zero override. *)
Lemma or_default_fin (override : option Q) (fallback : Q) :
  exists v : Q,
    JS.to_number (JS.or (option_map JS.Fin override) (Some (JS.Fin fallback))) = JS.Fin v
    /\ (v = fallback \/ (override = Some v /\ ~ v == 0)).
Proof.
  destruct override as [q |]; cbn [option_map JS.or JS.truthy].
  - destruct (Qeq_bool q 0) eqn:Hz; cbn [negb JS.to_number].
    + exists fallback. split; [reflexivity | left; reflexivity].
    + exists q. split; [reflexivity | right]. split; [reflexivity |].
      intros Hq. apply Qeq_bool_iff in Hq. congruence.
  - exists fallback. split; [reflexivity | left; reflexivity].
Qed.

Lemma or_falsy (v : option Q) (fallback : JS.number) :
  falsy v = true -> JS.or (option_map JS.Fin v) (Some fallback) = Some fallback.
Proof.
  destruct v as [q |]; cbn [falsy option_map JS.or]; [| reflexivity].
  intros H. apply negb_true_iff in H. rewrite H. reflexivity.
Qed.

(* ================================================================== *)
(** ** The pitch factor *)
(* ================================================================== *)

Lemma clamp_below (p : Q) : p < 0 -> JS.max 0 (JS.min 90 p) = JS.Fin 0.
Proof.
  intros H. rewrite min_fin, (Qle_bool_false 90 p) by lra.
  rewrite max_fin, (Qle_bool_false 0 p) by lra. reflexivity.
Qed.

Lemma clamp_above (p : Q) : 90 <= p -> JS.max 0 (JS.min 90 p) = JS.Fin 90.
Proof.
  intros H. rewrite min_fin, (Qle_bool_true 90 p) by lra. reflexivity.
Qed.

Lemma clamp_inside (p : Q) : 0 <= p -> p < 90 -> JS.max 0 (JS.min 90 p) = JS.Fin p.
Proof.
  intros H0 H90. rewrite min_fin, (Qle_bool_false 90 p) by lra.
  rewrite max_fin, (Qle_bool_true 0 p) by lra. reflexivity.
Qed.

Lemma pitch_scan_skip (c : Q) (lower upper : Z) (rest : list Z) :
  inject_Z upper < c ->
  pitch_scan c (lower :: upper :: rest) = pitch_scan c (upper :: rest).
Proof.
  intros H. cbn [pitch_scan].
  rewrite (leb_fin_false c (inject_Z upper)) by exact H.
  rewrite andb_false_r. reflexivity.
Qed.

Lemma pitch_scan_hit (c : Q) (lower upper : Z) (rest : list Z) :
  inject_Z lower <= c -> c <= inject_Z upper ->
  pitch_scan c (lower :: upper :: rest) = Some (interpolate lower upper c).
Proof.
  intros Hl Hu. cbn [pitch_scan].
  rewrite geb_fin_true by exact Hl. rewrite leb_fin_true by exact Hu.
  reflexivity.
Qed.

Lemma increasing_tail (a : Z) (l : list Z) : increasing (a :: l) -> increasing l.
Proof. destruct l; [trivial | intros [_ H]; exact H]. Qed.

(** In an increasing list everything before a position is below it. *)
Lemma increasing_prefix_lt (pre : list Z) (lo : Z) (post : list Z) :
  increasing (pre ++ lo :: post) -> Forall (fun k => (k < lo)%Z) pre.
Proof.
  induction pre as [| a pre IH]; intros H; [constructor |].
  pose proof (IH (increasing_tail a _ H)) as Hpre.
  constructor; [| exact Hpre].
  destruct pre as [| b pre]; cbn in H.
  - tauto.
  - destruct H as [Hab _]. inversion Hpre; subst. lia.
Qed.

(** The loop returns from the first pair that brackets the pitch: on an
    increasing list of anchors that is the pair of neighbours around it. *)
Lemma pitch_scan_neighbours (pre : list Z) (lo hi : Z) (post : list Z) (c : Q) :
  increasing (pre ++ lo :: hi :: post) ->
  inject_Z lo < c -> c <= inject_Z hi ->
  pitch_scan c (pre ++ lo :: hi :: post) = Some (interpolate lo hi c).
Proof.
  intros Hinc Hlo Hhi.
  pose proof (increasing_prefix_lt pre lo (hi :: post) Hinc) as Hpre.
  clear Hinc. induction pre as [| a pre IH].
  - cbn [app]. apply pitch_scan_hit; lra.
  - inversion Hpre as [| ? ? Ha Hpre']; subst.
    specialize (IH Hpre').
    destruct pre as [| b pre]; cbn [app] in *.
    + rewrite pitch_scan_skip; [exact IH | lra].
    + rewrite pitch_scan_skip; [exact IH |].
      inversion Hpre' as [| ? ? Hb _]; subst.
      apply Z.lt_le_incl in Hb. rewrite Zle_Qle in Hb. lra.
Qed.

Lemma interpolate_fin (lo hi : Z) (flo fhi c : Q) :
  pitch_factor_at lo = JS.Fin flo -> pitch_factor_at hi = JS.Fin fhi ->
  (lo < hi)%Z ->
  exists v : Q,
    interpolate lo hi c = JS.Fin v
    /\ v == flo + (c - inject_Z lo) / (inject_Z hi - inject_Z lo) * (fhi - flo).
Proof.
  intros Hflo Hfhi Hlt. unfold interpolate. rewrite Hflo, Hfhi.
  rewrite Zlt_Qlt in Hlt. js_fin.
  eexists. split; reflexivity.
Qed.

(** On anchors in increasing order, each with a value, the loop returns a
    finite factor for every pitch between the first and one of the others. *)
Lemma pitch_scan_total (ps : list Z) :
  forall (first : Z) (c : Q),
    increasing (first :: ps) ->
    Forall finite_at (first :: ps) ->
    inject_Z first <= c ->
    (exists k : Z, In k ps /\ c <= inject_Z k) ->
    exists v : Q, pitch_scan c (first :: ps) = Some (JS.Fin v).
Proof.
  induction ps as [| upper tl IH]; intros first c Hinc Hfin Hlo (k & Hk & Hhi).
  - contradiction.
  - destruct (Qlt_le_dec (inject_Z upper) c) as [Hgt | Hle].
    + rewrite pitch_scan_skip by exact Hgt.
      apply IH.
      * exact (increasing_tail first _ Hinc).
      * inversion Hfin; assumption.
      * lra.
      * exists k. split; [| exact Hhi].
        destruct Hk as [-> | Hk]; [lra | exact Hk].
    + rewrite pitch_scan_hit by assumption.
      inversion Hfin as [| ? ? [flo Hflo] Hrest]; subst.
      inversion Hrest as [| ? ? [fhi Hfhi] _]; subst.
      destruct Hinc as [Hlt _].
      destruct (interpolate_fin first upper flo fhi c Hflo Hfhi Hlt) as (v & Hv & _).
      exists v. rewrite Hv. reflexivity.
Qed.

Lemma pitches_sorted :
  JS.sort_asc (map fst PITCH_FACTORS)
  = [0; 10; 15; 20; 25; 30; 35; 40; 45; 50; 60; 70; 80; 90]%Z.
Proof. reflexivity. Qed.

Lemma pitches_increasing : increasing (JS.sort_asc (map fst PITCH_FACTORS)).
Proof. rewrite pitches_sorted. cbn. repeat split; lia. Qed.

Lemma pitches_finite : Forall finite_at (JS.sort_asc (map fst PITCH_FACTORS)).
Proof. rewrite pitches_sorted. repeat constructor; eexists; reflexivity. Qed.

Lemma pitch_factor_at_In (k : Z) (f : Q) :
  In (k, f) PITCH_FACTORS -> pitch_factor_at k = JS.Fin f.
Proof.
  intros H. unfold PITCH_FACTORS in H. cbn [In] in H.
  repeat (destruct H as [H | H]; [inversion H; subst; reflexivity |]).
  contradiction.
Qed.

Lemma getPitchFactor_finite (p : Q) : exists f : Q, getPitchFactor p = JS.Fin f.
Proof.
  assert (Hc : exists c : Q, JS.max 0 (JS.min 90 p) = JS.Fin c /\ 0 <= c /\ c <= 90).
  { destruct (Qlt_le_dec p 0) as [Hneg | Hpos].
    - exists 0. rewrite clamp_below by exact Hneg. repeat split; lra.
    - destruct (Qlt_le_dec p 90) as [Hlt | Hge].
      + exists p. rewrite clamp_inside by assumption. repeat split; lra.
      + exists 90. rewrite clamp_above by exact Hge. repeat split; lra. }
  destruct Hc as (c & Hc & H0 & H90).
  unfold getPitchFactor. rewrite Hc.
  pose proof pitches_increasing as Hinc. pose proof pitches_finite as Hfin.
  rewrite pitches_sorted in *.
  destruct (pitch_scan_total _ 0%Z c Hinc Hfin H0) as [v Hv].
  { exists 90%Z. split; [cbn; tauto | exact H90]. }
  rewrite Hv. exists v. reflexivity.
Qed.

Lemma ratio_bounds (lo hi c : Q) :
  lo < c -> c < hi -> 0 < (c - lo) / (hi - lo) /\ (c - lo) / (hi - lo) < 1.
Proof.
  intros Hlo Hhi. split.
  - apply Qlt_shift_div_l; lra.
  - apply Qlt_shift_div_r; lra.
Qed.

Lemma interpolate_strict (flo fhi r : Q) :
  0 < r -> r < 1 -> ~ flo == fhi -> strictly_between flo fhi (flo + r * (fhi - flo)).
Proof.
  intros H0 H1 Hne. unfold strictly_between.
  destruct (Q_dec flo fhi) as [[Hlt | Hgt] | Heq]; [left | right | contradiction].
  - assert (0 < r * (fhi - flo)) by (apply Qmult_lt_0_compat; lra).
    assert (0 < (1 - r) * (fhi - flo)) by (apply Qmult_lt_0_compat; lra).
    split; lra.
  - assert (0 < r * (flo - fhi)) by (apply Qmult_lt_0_compat; lra).
    assert (0 < (1 - r) * (flo - fhi)) by (apply Qmult_lt_0_compat; lra).
    split; lra.
Qed.

(** Each pair of [anchor_pairs] is a pair of table entries that are neighbours
    in the sorted keys. *)
Lemma anchor_pairs_neighbours (lo hi : Z) (flo fhi : Q) :
  In ((lo, flo), (hi, fhi)) anchor_pairs ->
  In (lo, flo) PITCH_FACTORS /\ In (hi, fhi) PITCH_FACTORS
  /\ (0 <= lo < hi)%Z /\ (hi <= 90)%Z
  /\ JS.sort_asc (map fst PITCH_FACTORS)
     = (filter (fun k => Z.ltb k lo) (map fst PITCH_FACTORS)
          ++ lo :: hi :: filter (fun k => Z.ltb hi k) (map fst PITCH_FACTORS))%list.
Proof.
  intros H. unfold anchor_pairs, PITCH_FACTORS in H. cbn [combine tl In] in H.
  repeat (destruct H as [H | H];
          [inversion H; subst; clear H;
           repeat split; try lia; try reflexivity; cbn; tauto |]).
  contradiction.
Qed.

Lemma getPitchFactor_between (lo hi : Z) (flo fhi p : Q) :
  In ((lo, flo), (hi, fhi)) anchor_pairs ->
  inject_Z lo < p -> p < inject_Z hi ->
  exists v : Q,
    getPitchFactor p = JS.Fin v
    /\ v == flo + (p - inject_Z lo) / (inject_Z hi - inject_Z lo) * (fhi - flo).
Proof.
  intros Hin Hlo Hhi.
  destruct (anchor_pairs_neighbours lo hi flo fhi Hin) as (Hl & Hh & Hrange & H90 & Hsplit).
  assert (H0 : 0 <= inject_Z lo).
  { change 0 with (inject_Z 0). rewrite <- Zle_Qle. lia. }
  assert (H90' : inject_Z hi <= 90).
  { change 90 with (inject_Z 90). rewrite <- Zle_Qle. lia. }
  unfold getPitchFactor. rewrite clamp_inside by lra.
  pose proof pitches_increasing as Hinc. rewrite Hsplit in Hinc |- *.
  rewrite pitch_scan_neighbours by (try exact Hinc; lra).
  apply interpolate_fin; [apply pitch_factor_at_In; exact Hl
                         | apply pitch_factor_at_In; exact Hh | lia].
Qed.

Lemma getPitchFactor_anchor (k : Z) (f : Q) :
  In (k, f) PITCH_FACTORS -> (getPitchFactor (inject_Z k) === f)%js.
Proof.
  intros H. unfold PITCH_FACTORS in H. cbn [In] in H.
  repeat (destruct H as [H | H]; [inversion H; subst; vm_compute; reflexivity |]).
  contradiction.
Qed.

(** C5, as stated, fails: 30 and 35 are neighbouring anchors with the same
    value 1.0, and at pitch 32 the factor is 1.0, which is not strictly
    between 1.0 and 1.0. *)
Lemma pitch_32_not_strictly_between :
  In ((30%Z, 1.0), (35%Z, 1.0)) anchor_pairs
  /\ exists v : Q, getPitchFactor 32 = JS.Fin v /\ ~ strictly_between 1.0 1.0 v.
Proof.
  split.
  - cbn. tauto.
  - eexists. split; [vm_compute; reflexivity |].
    unfold strictly_between. intros [[H1 H2] | [H1 H2]]; lra.
Qed.

(** C5 (amended): [getPitchFactor] clamps the pitch to [0, 90] (below 0 it
    answers as at 0, above 90 as at 90); at every anchor of the table it
    returns the table's value, in particular 1.0 at pitch 35; for a pitch
    strictly between two neighbouring anchors it returns the linear
    interpolation of their values up to the rounding of the arithmetic
    (within 10^-9), a value that is never outside the two; it is their
    common value when they are equal (the anchors 30 and 35, both 1.0), and
    strictly between them when they differ and the pitch is at least 10^-6
    away from both anchors.  (Closer to an anchor binary64 can return the
    anchor's value: 1 at pitch 29.999999999999996.) *)
Theorem getPitchFactor_spec :
  (forall p : Q, p < 0 -> getPitchFactor p = getPitchFactor 0)
  /\ (forall p : Q, 90 < p -> getPitchFactor p = getPitchFactor 90)
  /\ (forall (k : Z) (f : Q),
        In (k, f) PITCH_FACTORS -> (getPitchFactor (inject_Z k) === f)%js)
  /\ (getPitchFactor 35 === 1)%js
  /\ (forall (lo hi : Z) (flo fhi p : Q),
        In ((lo, flo), (hi, fhi)) anchor_pairs ->
        inject_Z lo < p -> p < inject_Z hi ->
        exists v : Q,
          getPitchFactor p = JS.Fin v
          /\ Qabs (v - (flo + (p - inject_Z lo) / (inject_Z hi - inject_Z lo)
                              * (fhi - flo)))
             <= 1 # 1000000000
          /\ between flo fhi v
          /\ (flo == fhi -> v == flo)
          /\ (~ flo == fhi ->
              inject_Z lo + (1 # 1000000) <= p -> p <= inject_Z hi - (1 # 1000000) ->
              strictly_between flo fhi v)).
Proof.
  split; [| split; [| split; [| split]]].
  - intros p Hp. unfold getPitchFactor. rewrite clamp_below by exact Hp. reflexivity.
  - intros p Hp. unfold getPitchFactor. rewrite clamp_above by lra. reflexivity.
  - exact getPitchFactor_anchor.
  - vm_compute. reflexivity.
  - intros lo hi flo fhi p Hin Hlo Hhi.
    destruct (getPitchFactor_between lo hi flo fhi p Hin Hlo Hhi) as (v & Hv & Hval).
    exists v. split; [exact Hv |].
    destruct (ratio_bounds (inject_Z lo) (inject_Z hi) p Hlo Hhi) as [Hr0 Hr1].
    revert Hval Hr0 Hr1.
    generalize ((p - inject_Z lo) / (inject_Z hi - inject_Z lo)). intros r Hval Hr0 Hr1.
    assert (Hstrict : ~ flo == fhi -> strictly_between flo fhi v).
    { intros Hne. unfold strictly_between. rewrite Hval.
      apply interpolate_strict; assumption. }
    split; [| split; [| split]].
    + apply Qabs_Qle_condition. rewrite Hval. split; lra.
    + destruct (Qeq_dec flo fhi) as [Heq | Hne].
      * left. rewrite Hval, Heq. split; lra.
      * destruct (Hstrict Hne) as [[H1 H2] | [H1 H2]]; [left | right]; split; lra.
    + intros Heq. rewrite Hval, Heq. ring.
    + intros Hne _ _. exact (Hstrict Hne).
Qed.

(** At pitch 12, between the anchors 10 (0.94) and 15 (0.96), the factor is
    0.948. *)
Lemma getPitchFactor_spec_witness :
  exists v : Q,
    getPitchFactor 12 = JS.Fin v
    /\ Qabs (v - (0.94 + (12 - inject_Z 10) / (inject_Z 15 - inject_Z 10) * (0.96 - 0.94)))
       <= 1 # 1000000000
    /\ between 0.94 0.96 v
    /\ (0.94 == 0.96 -> v == 0.94)
    /\ (~ 0.94 == 0.96 ->
        inject_Z 10 + (1 # 1000000) <= 12 -> 12 <= inject_Z 15 - (1 # 1000000) ->
        strictly_between 0.94 0.96 v).
Proof.
  apply (proj2 (proj2 (proj2 (proj2 getPitchFactor_spec))) 10%Z 15%Z 0.94 0.96 12).
  - cbn. tauto.
  - reflexivity.
  - reflexivity.
Defined.

(* ================================================================== *)
(** ** System sizing *)
(* ================================================================== *)

Lemma max_size_finite (area : Q) : exists v : Q, calculateMaxSystemSize area = JS.Fin v.
Proof. unfold calculateMaxSystemSize. js_fin. eexists. reflexivity. Qed.

(** With a positive usage the recommended size is a number, or [Infinity]
    when the effective irradiance is zero (a fully shaded roof). *)
Lemma recommended_size_cases (usage irradiance orientation pitch shading : Q) :
  0 < usage ->
  (exists v : Q,
     calculateRecommendedSize usage irradiance orientation pitch shading = JS.Fin v)
  \/ calculateRecommendedSize usage irradiance orientation pitch shading = JS.PosInf.
Proof.
  intros Husage. unfold calculateRecommendedSize. js_fin.
  set (effective := irradiance * orientation * pitch * shading
                    * systemLossFactor SOLAR_CONFIG).
  assert (Hdiv : (exists v : Q, (JS.Fin (usage * 0.9) / JS.Fin effective)%js = JS.Fin v)
                 \/ (JS.Fin (usage * 0.9) / JS.Fin effective)%js = JS.PosInf).
  { unfold JS.div. destruct (Qeq_bool effective 0).
    - right. assert (Hgt : (usage * 0.9 ?= 0) = Gt) by (apply Qgt_alt; lra).
      rewrite Hgt. reflexivity.
    - left. eexists. reflexivity. }
  destruct Hdiv as [(v & ->) | ->].
  - left. js_fin. eexists. reflexivity.
  - right. reflexivity.
Qed.

(** A household that uses electricity gets a valid (finite) system size,
    whatever the other inputs, a shading factor of zero included. *)
Lemma system_size_finite (now : string) (inputs : CalculatorInputs) (irradiance : option Q) :
  0 < annualElectricityUsage inputs ->
  JS.is_finite (recommendedSystemSize (calculateSolarEstimate now inputs irradiance)) = true.
Proof.
  intros Husage. unfold calculateSolarEstimate. cbn [recommendedSystemSize].
  destruct (orientation_factor_enumerated (roofOrientation inputs)) as (fo & -> & _).
  destruct (getPitchFactor_finite (roofPitch inputs)) as (fp & ->).
  destruct (or_default_fin irradiance (ukAverageIrradiance SOLAR_CONFIG)) as (irr & -> & _).
  cbn [JS.to_number].
  destruct (max_size_finite (roofArea inputs)) as (m & ->).
  unfold determineFinalSystemSize.
  destruct (recommended_size_cases (annualElectricityUsage inputs) irr fo fp
              (shadingFactor inputs) Husage) as [(v & ->) | ->].
  - js_fin. reflexivity.
  - cbn [JS.min]. js_fin. reflexivity.
Qed.


(** No size is both the nearest half to [min(8, 5.4)] and within the roof's
    maximum of 5.4: the two halves of the sentence cannot hold together. *)
Lemma nearest_half_up_exceeds_roof (v : Q) :
  nearest_half_up (Qmin 8 5.4) v -> 5.4 < v.
Proof.
  intros ((k & Hk) & Hlo & Hhi).
  assert (Hmin : Qmin 8 5.4 == 5.4) by (apply Q.min_r; discriminate).
  rewrite Hmin in Hlo, Hhi. rewrite Hk in *.
  assert (Hk10 : (10 < k)%Z).
  { rewrite Zlt_Qlt. unfold inject_Z at 1. inv_const. lra. }
  assert (Hk11 : (11 <= k)%Z) by lia.
  rewrite Zle_Qle in Hk11. unfold inject_Z at 1 in Hk11. inv_const. lra.
Qed.



(* ================================================================== *)
(** ** Generation and its split *)
(* ================================================================== *)








(* ================================================================== *)
(** ** Payback and the 25-year return *)
(* ================================================================== *)

(** C2, as stated, fails in its last part: a negative system cost with a
    positive benefit gives a negative payback period. *)
Lemma payback_negative :
  exists v : Q, calculatePaybackPeriod (-6000) 600 = JS.Fin v /\ v < 0.
Proof. eexists. split; [vm_compute; reflexivity | vm_compute; reflexivity]. Qed.

(** C2 (amended): for all finite [systemCost] and [annualBenefit],
    [calculatePaybackPeriod] returns the positive-infinity sentinel when
    [annualBenefit <= 0]; otherwise it never returns [NaN], what it returns
    is not negative when [systemCost] is not negative, and when
    [systemCost / annualBenefit] is at most 10^6 in absolute value it is a
    finite value, that quotient rounded to one decimal place: a whole number
    of tenths within 0.051 of it.  (Beyond the bound binary64 loses the
    tenths and, near 10^308, overflows to the sentinel; within rounding
    distance of a tie it returns the neighbouring tenth, 6.2 for 7 / 1.12.) *)
Theorem calculatePaybackPeriod_spec (systemCost annualBenefit : Q) :
  (annualBenefit <= 0 -> calculatePaybackPeriod systemCost annualBenefit = JS.PosInf)
  /\ (0 < annualBenefit ->
      JS.is_nan (calculatePaybackPeriod systemCost annualBenefit) = false
      /\ (0 <= systemCost ->
          not_negative (calculatePaybackPeriod systemCost annualBenefit))
      /\ (Qabs (systemCost / annualBenefit) <= 1000000 ->
          exists v : Q,
            calculatePaybackPeriod systemCost annualBenefit = JS.Fin v
            /\ one_decimal_near (systemCost / annualBenefit) v)).
Proof.
  unfold calculatePaybackPeriod. split.
  - intros Hb. rewrite leb_fin_true by exact Hb. reflexivity.
  - intros Hb. rewrite leb_fin_false by exact Hb. js_fin.
    assert (H0 : 0 <= systemCost -> 0 <= systemCost / annualBenefit).
    { intros Hc. apply Qle_shift_div_l; lra. }
    generalize dependent (systemCost / annualBenefit). intros q H0.
    pose proof (round_half_up_le (q * 10)) as Hle.
    pose proof (round_half_up_gt (q * 10)) as Hgt.
    pose proof (round_half_up_nonneg (q * 10)) as Hz.
    split; [reflexivity |]. split.
    + intros Hc. specialize (H0 Hc). cbn [not_negative]. inv_const. lra.
    + intros _. eexists. split; [reflexivity |].
      apply one_decimal_near_of. repeat split.
      * exists (JS.round_half_up (q * 10)). reflexivity.
      * inv_const. lra.
      * inv_const. lra.
Qed.

(** 6500 pounds at 600 pounds a year pay back in 10.8 years; with no benefit
    the sentinel is returned. *)
Lemma calculatePaybackPeriod_spec_witness :
  calculatePaybackPeriod 6500 0 = JS.PosInf
  /\ JS.is_nan (calculatePaybackPeriod 6500 600) = false
  /\ not_negative (calculatePaybackPeriod 6500 600)
  /\ exists v : Q,
       calculatePaybackPeriod 6500 600 = JS.Fin v
       /\ one_decimal_near (6500 / 600) v.
Proof.
  split.
  - apply (proj1 (calculatePaybackPeriod_spec 6500 0)). discriminate.
  - destruct (proj2 (calculatePaybackPeriod_spec 6500 600)) as (Hnan & Hsign & Hvalue);
      [reflexivity |].
    split; [exact Hnan |]. split; [apply Hsign; discriminate |].
    apply Hvalue. vm_compute. discriminate.
Defined.

Section RoiLoop.

Variables g r e x : Q.

Lemma roi_year_fin (acc : Q) (year : nat) :
  exists t : Q,
    roi_year g r e x acc year = JS.Fin t
    /\ t == acc + annualBenefit g r e x
                  * JS.pow_nat (1 - annualDegradation SOLAR_CONFIG) (year - 1).
Proof.
  unfold roi_year. js_fin. eexists. split; [reflexivity |].
  unfold annualBenefit, Qminus.
  generalize (JS.pow_nat (1 + - annualDegradation SOLAR_CONFIG) (year - 1)). intros p.
  field.
Qed.

(** The loop adds, year after year, the first-year benefit times the
    degradation factor of the year. *)
Lemma roi_loop_fin (years : list nat) :
  forall acc : Q,
    exists t : Q,
      fold_left (roi_year g r e x) years (JS.Fin acc) = JS.Fin t
      /\ t == acc + annualBenefit g r e x
                    * degradation_sum (1 - annualDegradation SOLAR_CONFIG) years.
Proof.
  induction years as [| year years IH]; intros acc;
    cbn [fold_left degradation_sum fold_right].
  - exists acc. split; [reflexivity | ring].
  - destruct (roi_year_fin acc year) as (t1 & -> & Ht1).
    destruct (IH t1) as (t & Ht & Hsum).
    exists t. split; [exact Ht |].
    rewrite Hsum, Ht1. unfold degradation_sum. ring.
Qed.

End RoiLoop.

(** The factors of [n] years from year [first] on form a geometric sum:
    times [1 - base] it telescopes. *)
Lemma degradation_sum_geometric (base : Q) (n : nat) :
  forall first : nat,
    degradation_sum base (List.seq (Datatypes.S first) n) * (1 - base)
    == JS.pow_nat base first - JS.pow_nat base (first + n).
Proof.
  unfold degradation_sum.
  induction n as [| n IH]; intros first; cbn [List.seq fold_right].
  - rewrite Nat.add_0_r. ring.
  - replace (Datatypes.S first - 1)%nat with first by lia.
    rewrite Qmult_plus_distr_l, IH.
    replace (first + Datatypes.S n)%nat with (Datatypes.S first + n)%nat by lia.
    cbn [JS.pow_nat]. ring.
Qed.

Lemma degradation_sum_25_closed :
  degradation_sum (1 - annualDegradation SOLAR_CONFIG) years25 * (1 # 200)
  == 1 - JS.pow_nat (199 # 200) 25.
Proof.
  pose proof (degradation_sum_geometric (1 - annualDegradation SOLAR_CONFIG) 25 0) as H.
  unfold years25. cbn [Nat.add JS.pow_nat] in H.
  assert (Hb : 1 - (1 - annualDegradation SOLAR_CONFIG) == 1 # 200) by reflexivity.
  rewrite Hb in H. rewrite H.
  assert (Hp : 1 - annualDegradation SOLAR_CONFIG == 199 # 200) by reflexivity.
  rewrite Hp. cbn [JS.pow_nat]. ring.
Qed.



Lemma degradation_power_25_fine :
  (882220 # 1000000) < JS.pow_nat (199 # 200) 25
  /\ JS.pow_nat (199 # 200) 25 < (882221 # 1000000).
Proof. split; vm_compute; reflexivity. Qed.

(** The 25 factors sum to 200 (1 - 0.995^25), about 23.556. *)
Lemma degradation_sum_25_fine :
  23.5558 < degradation_sum (1 - annualDegradation SOLAR_CONFIG) years25
  /\ degradation_sum (1 - annualDegradation SOLAR_CONFIG) years25 < 23.556.
Proof.
  pose proof degradation_sum_25_closed as H.
  destruct degradation_power_25_fine as [Hlo Hhi].
  revert H Hlo Hhi.
  generalize (degradation_sum (1 - annualDegradation SOLAR_CONFIG) years25)
             (JS.pow_nat (199 # 200) 25).
  intros s p H Hlo Hhi. split; lra.
Qed.

(** The 25-year return of a first-year benefit that is not negative, read
    off the bounds of the sum of the factors. *)
Lemma roi_value (g r e x cost : Q) (k : Z) :
  let benefit := annualBenefit g r e x in
  inject_Z k - (1 # 2) <= benefit * 23.5558 - cost ->
  benefit * 23.556 - cost < inject_Z k + (1 # 2) ->
  0 <= benefit ->
  calculateROI25Years g r e x cost = JS.Fin (inject_Z k).
Proof.
  intros benefit Hlo Hhi Hpos.
  unfold calculateROI25Years, totalBenefit25.
  destruct (roi_loop_fin g r e x years25 0) as (total & -> & Htotal).
  fold benefit in Htotal.
  destruct degradation_sum_25_fine as [Hs1 Hs2].
  js_fin. f_equal. f_equal. apply round_half_up_eq.
  - rewrite Htotal.
    assert (benefit * 23.5558
            <= benefit * degradation_sum (1 - annualDegradation SOLAR_CONFIG) years25).
    { rewrite !(Qmult_comm benefit). apply Qmult_le_compat_r; lra. }
    lra.
  - rewrite Htotal.
    assert (benefit * degradation_sum (1 - annualDegradation SOLAR_CONFIG) years25
            <= benefit * 23.556).
    { rewrite !(Qmult_comm benefit). apply Qmult_le_compat_r; lra. }
    lra.
Qed.




(* ================================================================== *)
(** ** The pipeline *)
(* ================================================================== *)

(** C7: for the inputs (51.5, -0.14, S, 35 degrees, 30 m2, shading 1.0,
    3500 kWh, daytime) and no irradiance argument, [calculateSolarEstimate]
    tags the irradiance source as the fallback [UK_AVERAGE], uses the fixed
    UK-average constant, and returns a system size strictly between 2 and
    8 kWp (3.5), a payback period strictly between 5 and 15 years (7.1) and
    a positive 25-year return (10584). *)
Theorem typical_installation (now : string) :
  let results := calculateSolarEstimate now validInputs None in
  irradianceSource (metadata results) = UK_AVERAGE
  /\ irradianceUsed (metadata results) = JS.Fin (ukAverageIrradiance SOLAR_CONFIG)
  /\ exists size payback roi : Q,
       recommendedSystemSize results = JS.Fin size
       /\ paybackPeriod results = JS.Fin payback
       /\ roi25Years results = JS.Fin roi
       /\ 2 < size /\ size < 8
       /\ 5 < payback /\ payback < 15
       /\ 0 < roi
       /\ size == 3.5 /\ payback == 7.1 /\ roi == 10584.
Proof.
  cbv zeta. split; [reflexivity |]. split; [reflexivity |].
  do 2 eexists. exists (inject_Z 10584).
  split; [vm_compute; reflexivity |].
  split; [vm_compute; reflexivity |].
  split.
  { unfold calculateSolarEstimate. cbn [roi25Years].
    transitivity (calculateROI25Years 3010 0.5 27.69 15 4550).
    - f_equal; vm_compute; reflexivity.
    - apply roi_value; vm_compute; first [discriminate | reflexivity]. }
  repeat split; vm_compute; reflexivity.
Qed.

(** The [||] that resolves the overrides tests truthiness, not presence:
    [undefined], [0] and [NaN] all fall through to the right operand. *)
Lemma or_falls_through (v fallback : option JS.number) :
  match v with Some a => JS.truthy a = false | None => True end ->
  JS.or v fallback = fallback.
Proof.
  destruct v as [a |]; cbn [JS.or]; [| reflexivity].
  intros ->. reflexivity.
Qed.

(** C10: an irradiance argument that is 0 (or absent) makes
    [calculateSolarEstimate] use the UK-average constant and tag the source
    [UK_AVERAGE], with the very result of a call without the argument; an
    [electricityUnitRate] or [exportTariffRate] override of 0 is ignored in
    favour of the default energy pricing, with the very result of a call
    without the override. *)
Theorem falsy_overrides_ignored
    (now : string) (inputs : CalculatorInputs) (irradiance : option Q) :
  let results := calculateSolarEstimate now inputs irradiance in
  (falsy irradiance = true ->
   irradianceUsed (metadata results) = JS.Fin (ukAverageIrradiance SOLAR_CONFIG)
   /\ irradianceSource (metadata results) = UK_AVERAGE
   /\ results = calculateSolarEstimate now inputs None)
  /\ (falsy (electricityUnitRate inputs) = true ->
      electricityRate (metadata results)
      = JS.Fin (electricityRatePence UK_ENERGY_CONFIG)
      /\ results
         = calculateSolarEstimate now
             (with_overrides inputs None (exportTariffRate inputs)) irradiance)
  /\ (falsy (exportTariffRate inputs) = true ->
      exportRate (metadata results) = JS.Fin (segExportRatePence UK_ENERGY_CONFIG)
      /\ results
         = calculateSolarEstimate now
             (with_overrides inputs (electricityUnitRate inputs) None) irradiance).
Proof.
  cbv zeta. split; [| split].
  - intros H.
    assert (Hsrc : match option_map JS.Fin irradiance with
                   | Some i => if JS.truthy i then PVGIS else UK_AVERAGE
                   | None => UK_AVERAGE
                   end = UK_AVERAGE).
    { destruct irradiance as [q |]; [| reflexivity].
      cbn [falsy] in H. apply negb_true_iff in H.
      cbn [option_map]. rewrite H. reflexivity. }
    unfold calculateSolarEstimate. cbn [metadata irradianceUsed irradianceSource].
    rewrite (or_falsy irradiance _ H), Hsrc. cbn [option_map JS.or].
    repeat split.
  - intros H. unfold calculateSolarEstimate.
    cbn [metadata electricityRate with_overrides electricityUnitRate exportTariffRate
         roofOrientation roofPitch shadingFactor roofArea annualElectricityUsage
         homeOccupancy].
    rewrite (or_falsy (electricityUnitRate inputs) _ H). cbn [option_map JS.or].
    split; reflexivity.
  - intros H. unfold calculateSolarEstimate.
    cbn [metadata exportRate with_overrides electricityUnitRate exportTariffRate
         roofOrientation roofPitch shadingFactor roofArea annualElectricityUsage
         homeOccupancy].
    rewrite (or_falsy (exportTariffRate inputs) _ H). cbn [option_map JS.or].
    split; reflexivity.
Qed.

(** The typical installation with the irradiance and both rate overrides
    given as 0. *)
Lemma falsy_overrides_ignored_witness :
  let inputs := with_overrides validInputs (Some 0) (Some 0) in
  let results := calculateSolarEstimate "2026-01-15T09:00:00.000Z" inputs (Some 0) in
  irradianceUsed (metadata results) = JS.Fin 1000
  /\ irradianceSource (metadata results) = UK_AVERAGE
  /\ electricityRate (metadata results) = JS.Fin 27.69
  /\ exportRate (metadata results) = JS.Fin 15.
Proof.
  cbv zeta.
  pose proof (falsy_overrides_ignored "2026-01-15T09:00:00.000Z"
                (with_overrides validInputs (Some 0) (Some 0)) (Some 0)) as H.
  cbv zeta in H. destruct H as (Hirr & Hrate & Hexport).
  destruct (Hirr eq_refl) as (Hused & Hsource & _).
  destruct (Hrate eq_refl) as (Hunit & _).
  destruct (Hexport eq_refl) as (Hexp & _).
  repeat split; assumption.
Defined.

(* ================================================================== *)
(** ** Defaults of the table lookups *)
(* ================================================================== *)

(** C9, as stated, fails: the orientation and self-consumption tables have
    no default entry, and a key outside them yields [undefined]. *)
Lemma lookup_miss_undefined :
  getOrientationFactor "UP" = None /\ calculateSelfConsumption "weekends" = None.
Proof. split; reflexivity. Qed.

(** C9 (amended): for keys that are not property names inherited from
    [Object.prototype] ([constructor], [toString] and the like, which a plain
    object answers with a function): [getRegionalIrradiance] on a region
    outside the table returns the table's [default] entry, 950, and on a
    region of the table its entry; [getOrientationFactor] and
    [calculateSelfConsumption] return a defined factor for every enumerated
    orientation and occupancy, and [undefined] for every other such key:
    these two tables have no default. *)
Theorem table_lookups_spec :
  JS.lookup "default" REGIONAL_IRRADIANCE = Some (JS.Fin 950)
  /\ (forall region : string,
        JS.inherited region = false ->
        JS.lookup region REGIONAL_IRRADIANCE = None ->
        getRegionalIrradiance region = Some (JS.Fin 950))
  /\ (forall (region : string) (v : JS.number),
        JS.lookup region REGIONAL_IRRADIANCE = Some v ->
        JS.inherited region = false /\ getRegionalIrradiance region = Some v)
  /\ (forall o : RoofOrientation,
        exists f : Q,
          JS.inherited (orientation_key o) = false
          /\ getOrientationFactor (orientation_key o) = Some (JS.Fin f) /\ 0 < f /\ f <= 1)
  /\ (forall o : HomeOccupancy,
        exists f : Q,
          JS.inherited (occupancy_key o) = false
          /\ calculateSelfConsumption (occupancy_key o) = Some (JS.Fin f)
          /\ 0 < f /\ f < 1)
  /\ (forall key : string,
        JS.inherited key = false ->
        (forall o : RoofOrientation, key <> orientation_key o) ->
        getOrientationFactor key = None)
  /\ (forall key : string,
        JS.inherited key = false ->
        (forall o : HomeOccupancy, key <> occupancy_key o) ->
        calculateSelfConsumption key = None).
Proof.
  split; [reflexivity |].
  split.
  { intros region _ Hmiss. unfold getRegionalIrradiance. rewrite Hmiss. reflexivity. }
  split.
  { intros region v Hhit. split.
    - apply (lookup_own region _ v regional_keys_own Hhit).
    - unfold getRegionalIrradiance. rewrite Hhit.
      cbn [JS.or]. rewrite (lookup_values_truthy region _ regional_values_nonzero v Hhit).
      reflexivity. }
  split.
  { intros o. destruct (orientation_factor_enumerated o) as (f & Hf & Hrange).
    exists f. split; [destruct o; reflexivity |]. split; [exact Hf | exact Hrange]. }
  split.
  { intros o. destruct (self_consumption_enumerated o) as (f & Hf & Hrange).
    exists f. split; [destruct o; reflexivity |]. split; [exact Hf | exact Hrange]. }
  split.
  - intros key _ Hkey. unfold getOrientationFactor. cbn [orientationFactors SOLAR_CONFIG].
    rewrite (lookup_cons_ne key "S") by exact (Hkey S).
    rewrite (lookup_cons_ne key "SE") by exact (Hkey SE).
    rewrite (lookup_cons_ne key "SW") by exact (Hkey SW).
    rewrite (lookup_cons_ne key "E") by exact (Hkey E).
    rewrite (lookup_cons_ne key "W") by exact (Hkey W).
    rewrite (lookup_cons_ne key "NE") by exact (Hkey NE).
    rewrite (lookup_cons_ne key "NW") by exact (Hkey NW).
    rewrite (lookup_cons_ne key "N") by exact (Hkey N).
    rewrite (lookup_cons_ne key "flat") by exact (Hkey flat).
    reflexivity.
  - intros key _ Hkey. unfold calculateSelfConsumption.
    cbn [selfConsumptionFactors SOLAR_CONFIG].
    rewrite (lookup_cons_ne key "always") by exact (Hkey always).
    rewrite (lookup_cons_ne key "daytime") by exact (Hkey daytime).
    rewrite (lookup_cons_ne key "evening") by exact (Hkey evening).
    rewrite (lookup_cons_ne key "variable") by exact (Hkey variable).
    reflexivity.
Qed.

(** An unknown region gets the default, as the regional test expects. *)
Lemma table_lookups_spec_witness :
  JS.inherited "Unknown Region" = false
  /\ getRegionalIrradiance "Unknown Region" = Some (JS.Fin 950)
  /\ getRegionalIrradiance "Unknown Region" = getRegionalIrradiance "default".
Proof.
  destruct table_lookups_spec as (Hdefault & Hmiss & Hhit & _).
  split; [reflexivity |]. split.
  - apply Hmiss; reflexivity.
  - rewrite (Hmiss "Unknown Region") by reflexivity.
    symmetry. apply (Hhit "default"). exact Hdefault.
Defined.

(* ================================================================== *)
(** ** The lead score *)
(* ================================================================== *)

(** [Math.min(cap, Math.round((x / d) * cap))] on a non-negative [x]. *)
Lemma capped_points_range (cap d : Q) (x : JS.number) :
  0 < d -> 0 < cap -> (0 <=? x)%js = true ->
  exists v : Q,
    JS.min cap (JS.round ((x / d) * cap)%js) = JS.Fin v /\ 0 <= v /\ v <= cap.
Proof.
  intros Hd Hcap Hx. destruct x as [q | | |]; try discriminate Hx.
  - apply Qle_bool_iff in Hx. js_fin.
    eexists. split; [reflexivity |].
    assert (H0 : 0 <= q / d * cap).
    { apply Qmult_le_0_compat; [apply Qle_shift_div_l; lra | lra]. }
    pose proof (round_half_up_nonneg _ H0) as Hr.
    destruct (Qle_bool cap (inject_Z (JS.round_half_up (q / d * cap)))) eqn:Hcapped.
    + lra.
    + split; [exact Hr |].
      destruct (Qlt_le_dec (inject_Z (JS.round_half_up (q / d * cap))) cap) as [Hlt | Hge].
      * lra.
      * apply Qle_bool_iff in Hge. congruence.
  - exists cap. unfold JS.div.
    rewrite (proj1 (Qgt_alt d 0) Hd). cbn [JS.mul JS.signed_inf].
    rewrite (proj1 (Qgt_alt cap 0) Hcap). cbn [JS.signed_inf JS.round JS.min].
    repeat split; lra.
Qed.

Lemma systemSizePoints_range (results : CalculatorResults) :
  (0 <=? recommendedSystemSize results)%js = true ->
  exists v : Q, systemSizePoints results = JS.Fin v /\ 0 <= v /\ v <= 20.
Proof. intros H. apply capped_points_range; [reflexivity | reflexivity | exact H]. Qed.

Lemma savingsPoints_range (results : CalculatorResults) :
  (0 <=? totalAnnualBenefit results)%js = true ->
  exists v : Q, savingsPoints results = JS.Fin v /\ 0 <= v /\ v <= 15.
Proof. intros H. apply capped_points_range; [reflexivity | reflexivity | exact H]. Qed.

Lemma usagePoints_range (results : CalculatorResults) :
  (0 <=? estimatedAnnualGeneration results)%js = true ->
  exists v : Q, usagePoints results = JS.Fin v /\ 0 <= v /\ v <= 5.
Proof. intros H. apply capped_points_range; [reflexivity | reflexivity | exact H]. Qed.

Lemma paybackScore_range (results : CalculatorResults) :
  JS.is_nan (paybackPeriod results) = false ->
  exists v : Q, paybackScore results = JS.Fin v /\ 0 <= v /\ v <= 20.
Proof.
  intros H. unfold paybackScore.
  destruct (paybackPeriod results) as [p | | |]; try discriminate H.
  - cbn [w_paybackPeriod SCORING_WEIGHTS]. unfold JS.geb. rewrite !leb_fin.
    destruct (Qle_bool p 7) eqn:H7le.
    + exists 20. repeat split; lra.
    + destruct (Qle_bool 15 p) eqn:H15le.
      * exists 0. repeat split; lra.
      * js_fin. eexists. split; [reflexivity |].
        assert (H7 : 7 < p).
        { destruct (Qlt_le_dec 7 p) as [Hlt | Hle]; [exact Hlt |].
          apply Qle_bool_iff in Hle. congruence. }
        assert (H15 : p < 15).
        { destruct (Qlt_le_dec p 15) as [Hlt | Hle]; [exact Hlt |].
          apply Qle_bool_iff in Hle. congruence. }
        change 0 with (inject_Z 0). change 20 with (inject_Z 20).
        apply round_half_up_bounds; unfold inject_Z; inv_const; lra.
  - exists 0. repeat split; lra.
  - exists 20. repeat split; lra.
Qed.

Lemma selfConsumptionPoints_range (results : CalculatorResults) :
  (0 <=? selfConsumptionRatio results)%js = true ->
  (selfConsumptionRatio results <=? 1)%js = true ->
  exists v : Q, selfConsumptionPoints results = JS.Fin v /\ 0 <= v /\ v <= 10.
Proof.
  intros H0 H1. unfold selfConsumptionPoints.
  destruct (selfConsumptionRatio results) as [c | | |]; try discriminate.
  apply Qle_bool_iff in H0, H1. cbn [w_selfConsumption SCORING_WEIGHTS]. js_fin.
  eexists. split; [reflexivity |].
  change 0 with (inject_Z 0). change 10 with (inject_Z 10).
  apply round_half_up_bounds; unfold inject_Z; lra.
Qed.

Lemma roofAreaPoints_range (results : CalculatorResults) :
  (0 <=? numberOfPanels results)%js = true ->
  exists v : Q, roofAreaPoints results = JS.Fin v /\ 0 <= v /\ v <= 10.
Proof.
  intros H. unfold roofAreaPoints.
  destruct (numberOfPanels results) as [n | | |]; try discriminate.
  - apply Qle_bool_iff in H. cbn [w_roofArea SCORING_WEIGHTS].
    unfold JS.geb. rewrite leb_fin.
    destruct (Qle_bool 12 n) eqn:H12le.
    + exists 10. repeat split; lra.
    + js_fin. eexists. split; [reflexivity |].
      assert (H12 : n < 12).
      { destruct (Qlt_le_dec n 12) as [Hlt | Hle]; [exact Hlt |].
        apply Qle_bool_iff in Hle. congruence. }
      change 0 with (inject_Z 0). change 10 with (inject_Z 10).
      apply round_half_up_bounds; unfold inject_Z; inv_const; lra.
  - exists 10. repeat split; lra.
Qed.

Lemma phonePoints_range (contact : LeadContact) :
  exists v : Q, phonePoints contact = JS.Fin v /\ 0 <= v /\ v <= 15.
Proof.
  unfold phonePoints. destruct (JS.truthy_string (phone contact));
    eexists; (split; [reflexivity | split; discriminate]).
Qed.

Lemma namePoints_range (contact : LeadContact) :
  exists v : Q, namePoints contact = JS.Fin v /\ 0 <= v /\ v <= 5.
Proof.
  unfold namePoints. destruct (JS.truthy_string (name contact));
    eexists; (split; [reflexivity | split; discriminate]).
Qed.

(** C3, as stated, fails: a self-consumption ratio given as 45 scores 450
    points on its own and the total is above 100; a system size of -60 scores
    -200 points and the total is below 0. *)
Lemma lead_score_out_of_range :
  (exists total : Q,
     totalScore (calculateLeadScore (scored_results 4 7 745 10 3600 45) contact_email_only)
     = JS.Fin total /\ 100 < total)
  /\ (exists total : Q,
        totalScore (calculateLeadScore (scored_results (-60) 7 745 10 3600 0.45)
                      contact_email_only)
        = JS.Fin total /\ total < 0).
Proof. split; eexists; (split; [vm_compute; reflexivity | vm_compute; reflexivity]). Qed.

(** C3 (amended): for every result and contact the factors are the eight of
    [factor_order], in that order; when the result is within the documented
    ranges (system size, total benefit, panel count and generation not
    negative, self-consumption ratio in [0, 1], payback period not NaN) the
    total score is at least 0 and at most 100. *)
Theorem lead_score_bounds (results : CalculatorResults) (contact : LeadContact) :
  map factorName (factors (calculateLeadScore results contact)) = factor_order
  /\ List.length (factors (calculateLeadScore results contact)) = 8%nat
  /\ (within_documented_ranges results = true ->
      exists total : Q,
        totalScore (calculateLeadScore results contact) = JS.Fin total
        /\ 0 <= total /\ total <= 100).
Proof.
  split; [reflexivity |]. split; [reflexivity |].
  unfold within_documented_ranges. intros H.
  repeat (apply andb_prop in H; destruct H as [H ?]).
  match goal with Hn : negb _ = true |- _ => apply negb_true_iff in Hn end.
  destruct (systemSizePoints_range results) as (p1 & E1 & ? & ?); [assumption |].
  destruct (paybackScore_range results) as (p2 & E2 & ? & ?); [assumption |].
  destruct (savingsPoints_range results) as (p3 & E3 & ? & ?); [assumption |].
  destruct (phonePoints_range contact) as (p4 & E4 & ? & ?).
  destruct (namePoints_range contact) as (p5 & E5 & ? & ?).
  destruct (selfConsumptionPoints_range results) as (p6 & E6 & ? & ?); [assumption .. |].
  destruct (roofAreaPoints_range results) as (p7 & E7 & ? & ?); [assumption |].
  destruct (usagePoints_range results) as (p8 & E8 & ? & ?); [assumption |].
  unfold calculateLeadScore. cbn [totalScore].
  rewrite E1, E2, E3, E4, E5, E6, E7, E8. js_fin.
  eexists. split; [reflexivity |]. split; lra.
Qed.

Lemma lead_score_bounds_witness :
  exists total : Q,
    totalScore (calculateLeadScore example_results contact_full) = JS.Fin total
    /\ 0 <= total /\ total <= 100.
Proof.
  apply (proj2 (proj2 (lead_score_bounds example_results contact_full))).
  vm_compute. reflexivity.
Defined.

(** C4, as stated, fails: for the example result a contact with only an
    email still scores "hot", and the total is not 35 points below the one
    with phone and name. *)
Lemma email_only_still_hot :
  let full := calculateLeadScore example_results contact_full in
  let partial := calculateLeadScore example_results contact_email_only in
  category partial = hot
  /\ category partial <> warm
  /\ ~ (totalScore full - totalScore partial === 35)%js.
Proof.
  cbv zeta. split; [vm_compute; reflexivity |].
  split; [vm_compute; discriminate |].
  vm_compute. discriminate.
Qed.

(** C4 (amended): for a result with total benefit 745, system size 6, payback
    6, 15 panels, generation 5000 and self-consumption ratio 0.5, a contact
    with phone and name scores 95, "hot"; a contact with only an email scores
    exactly 20 points lower (15 for the phone, 5 for the name), 75, which is
    still "hot". *)
Theorem lead_score_example (results : CalculatorResults) (full partial : LeadContact) :
  totalAnnualBenefit results = JS.Fin 745 ->
  recommendedSystemSize results = JS.Fin 6 ->
  paybackPeriod results = JS.Fin 6 ->
  numberOfPanels results = JS.Fin 15 ->
  estimatedAnnualGeneration results = JS.Fin 5000 ->
  selfConsumptionRatio results = JS.Fin 0.5 ->
  JS.truthy_string (phone full) = true ->
  JS.truthy_string (name full) = true ->
  phone partial = None ->
  name partial = None ->
  (totalScore (calculateLeadScore results full) === 95)%js
  /\ category (calculateLeadScore results full) = hot
  /\ (totalScore (calculateLeadScore results partial) === 75)%js
  /\ category (calculateLeadScore results partial) = hot
  /\ (totalScore (calculateLeadScore results full)
      - totalScore (calculateLeadScore results partial) === 20)%js.
Proof.
  intros Hbenefit Hsize Hpayback Hpanels Hgeneration Hratio Hphone Hname Hnophone Hnoname.
  unfold calculateLeadScore. cbn [totalScore category].
  unfold systemSizePoints, paybackScore, savingsPoints, phonePoints, namePoints,
    selfConsumptionPoints, roofAreaPoints, usagePoints.
  rewrite Hbenefit, Hsize, Hpayback, Hpanels, Hgeneration, Hratio, Hphone, Hname,
    Hnophone, Hnoname.
  repeat split; vm_compute; reflexivity.
Qed.

Lemma lead_score_example_witness :
  (totalScore (calculateLeadScore example_results contact_full) === 95)%js
  /\ category (calculateLeadScore example_results contact_full) = hot
  /\ (totalScore (calculateLeadScore example_results contact_email_only) === 75)%js
  /\ category (calculateLeadScore example_results contact_email_only) = hot
  /\ (totalScore (calculateLeadScore example_results contact_full)
      - totalScore (calculateLeadScore example_results contact_email_only) === 20)%js.
Proof.
  apply (lead_score_example example_results contact_full contact_email_only);
    reflexivity.
Defined.

(* ================================================================== *)
(** ** Sizing *)
(* ================================================================== *)

Lemma max_size_value (area : Q) :
  calculateMaxSystemSize area
  = JS.Fin (inject_Z (JS.round_half_up (area / 5 * 10)) / 10).
Proof. unfold calculateMaxSystemSize. cbn [panelAreaPerKwp SOLAR_CONFIG]. js_fin. reflexivity. Qed.

Lemma panel_count_value (size : Q) :
  calculatePanelCount size = JS.Fin (inject_Z (Qceiling (size * 1000 / 400))).
Proof. unfold calculatePanelCount. cbn [panelWattage SOLAR_CONFIG]. js_fin. reflexivity. Qed.

(** X1: For every roof area of at most 10^6 m2 in absolute value,
    calculateMaxSystemSize returns roofArea / 5 rounded to one decimal place:
    a whole number of tenths within 0.051 of roofArea / 5; a larger roof
    never gets a smaller maximum, and the maximum is not negative when the
    area is not negative. *)
Theorem max_system_size_monotone (area1 area2 : Q) :
  Qabs area1 <= 1000000 -> Qabs area2 <= 1000000 ->
  exists v1 v2 : Q,
    calculateMaxSystemSize area1 = JS.Fin v1
    /\ calculateMaxSystemSize area2 = JS.Fin v2
    /\ one_decimal_near (area1 / 5) v1
    /\ (area1 <= area2 -> v1 <= v2)
    /\ (0 <= area1 -> 0 <= v1).
Proof.
  intros _ _.
  unfold calculateMaxSystemSize. cbn [panelAreaPerKwp SOLAR_CONFIG]. js_fin.
  do 2 eexists. split; [reflexivity |]. split; [reflexivity |].
  pose proof (round_half_up_le (area1 / 5 * 10)) as Hle.
  pose proof (round_half_up_gt (area1 / 5 * 10)) as Hgt.
  split; [| split].
  - apply one_decimal_near_of. repeat split.
    + exists (JS.round_half_up (area1 / 5 * 10)). reflexivity.
    + inv_const. lra.
    + inv_const. lra.
  - intros Hmono.
    assert (Hz : (JS.round_half_up (area1 / 5 * 10) <= JS.round_half_up (area2 / 5 * 10))%Z).
    { apply round_half_up_mono. inv_const. lra. }
    rewrite Zle_Qle in Hz. inv_const. lra.
  - intros Hpos.
    pose proof (round_half_up_nonneg (area1 / 5 * 10)) as Hz.
    inv_const. lra.
Qed.

Lemma max_system_size_monotone_witness :
  exists v1 v2 : Q,
    calculateMaxSystemSize 27 = JS.Fin v1
    /\ calculateMaxSystemSize 30 = JS.Fin v2
    /\ one_decimal_near (27 / 5) v1
    /\ (27 <= 30 -> v1 <= v2)
    /\ (0 <= 27 -> 0 <= v1).
Proof. apply (max_system_size_monotone 27 30); vm_compute; discriminate. Defined.

(** X2: For every system size of at most 10^6 kWp in absolute value,
    calculatePanelCount returns a whole number n of 400 W panels that is the
    least whose total wattage reaches the size, up to a milliwatt:
    n * 400 >= size * 1000 - 0.001 and (n - 1) * 400 < size * 1000 + 0.001. *)
Theorem panel_count_least (size : Q) :
  Qabs size <= 1000000 ->
  exists n : Z,
    calculatePanelCount size = JS.Fin (inject_Z n)
    /\ size * 1000 - (1 # 1000) <= inject_Z n * 400
    /\ inject_Z (n - 1) * 400 < size * 1000 + (1 # 1000).
Proof.
  intros _.
  unfold calculatePanelCount. cbn [panelWattage SOLAR_CONFIG]. js_fin.
  cbn [JS.ceil]. eexists. split; [reflexivity |].
  pose proof (Qle_ceiling (size * 1000 / 400)) as Hle.
  pose proof (Qceiling_lt (size * 1000 / 400)) as Hlt.
  split; inv_const; lra.
Qed.

Lemma panel_count_least_witness :
  exists n : Z,
    calculatePanelCount 3.5 = JS.Fin (inject_Z n)
    /\ 3.5 * 1000 - (1 # 1000) <= inject_Z n * 400
    /\ inject_Z (n - 1) * 400 < 3.5 * 1000 + (1 # 1000).
Proof. apply (panel_count_least 3.5). vm_compute. discriminate. Defined.

(** The product of two positive numbers each at most a bound. *)
Lemma product_le (a b boundA boundB : Q) :
  0 <= a -> a <= boundA -> 0 <= b -> b <= boundB -> 0 <= a * b /\ a * b <= boundA * boundB.
Proof.
  intros Ha0 Ha1 Hb0 Hb1. split; [apply Qmult_le_0_compat; assumption |].
  apply Qle_trans with (boundA * b).
  - apply Qmult_le_compat_r; assumption.
  - rewrite !(Qmult_comm boundA). apply Qmult_le_compat_r; lra.
Qed.

(** Worse factors give a smaller product, still positive. *)
Lemma efficiency_no_better (irr1 fo1 fp1 sf1 irr2 fo2 fp2 sf2 : Q) :
  no_better irr2 irr1 -> no_better fo2 fo1 -> no_better fp2 fp1 -> no_better sf2 sf1 ->
  0 < efficiency irr2 fo2 fp2 sf2
  /\ efficiency irr2 fo2 fp2 sf2 <= efficiency irr1 fo1 fp1 sf1.
Proof.
  unfold no_better, efficiency.
  intros (Hi0 & Hi & _) (Ho0 & Ho & _) (Hp0 & Hp & _) (Hs0 & Hs & _).
  assert (H1 : 0 < irr2 * fo2) by (apply Qmult_lt_0_compat; lra).
  assert (H2 : 0 < irr2 * fo2 * fp2) by (apply Qmult_lt_0_compat; lra).
  split; [apply Qmult_lt_0_compat; lra |].
  destruct (product_le irr2 fo2 irr1 fo1) as [_ Ha]; try lra.
  destruct (product_le (irr2 * fo2) fp2 (irr1 * fo1) fp1) as [_ Hb]; try lra.
  destruct (product_le (irr2 * fo2 * fp2) sf2 (irr1 * fo1 * fp1) sf1) as [_ Hc]; try lra.
Qed.

Lemma recommended_size_value (usage irr fo fp sf : Q) :
  0 < efficiency irr fo fp sf ->
  calculateRecommendedSize usage irr fo fp sf
  = JS.Fin (inject_Z (JS.round_half_up
                        (usage * 0.9 / (efficiency irr fo fp sf * 0.86) * 10)) / 10).
Proof.
  intros He. unfold calculateRecommendedSize, efficiency in *.
  cbn [systemLossFactor SOLAR_CONFIG]. js_fin. reflexivity.
Qed.

(** X3: For a usage between 0 and 10^9 kWh and an irradiance and factors
    between 0.001 and 10000, calculateRecommendedSize returns a finite size
    that is not negative and never decreases when the usage grows or when
    the irradiance or a factor shrinks (less sun, worse orientation or pitch,
    more shade); when usage * 0.9 / (irradiance * orientationFactor *
    pitchFactor * shadingFactor * 0.86) is at most 10^6 the size is that
    quotient rounded to one decimal place: a whole number of tenths within
    0.051 of it. *)
Theorem recommended_size_monotone
    (usage1 usage2 irr1 fo1 fp1 sf1 irr2 fo2 fp2 sf2 : Q) :
  0 <= usage1 -> usage1 <= usage2 -> usage2 <= 1000000000 ->
  no_better irr2 irr1 -> no_better fo2 fo1 -> no_better fp2 fp1 -> no_better sf2 sf1 ->
  exists small large : Q,
    calculateRecommendedSize usage1 irr1 fo1 fp1 sf1 = JS.Fin small
    /\ calculateRecommendedSize usage2 irr2 fo2 fp2 sf2 = JS.Fin large
    /\ 0 <= small /\ small <= large
    /\ (usage1 * 0.9 / (efficiency irr1 fo1 fp1 sf1 * 0.86) <= 1000000 ->
        one_decimal_near (usage1 * 0.9 / (efficiency irr1 fo1 fp1 sf1 * 0.86)) small).
Proof.
  intros Hu0 Hu _ Hirr Hfo Hfp Hsf.
  destruct (efficiency_no_better _ _ _ _ _ _ _ _ Hirr Hfo Hfp Hsf) as [He2 He].
  assert (He1 : 0 < efficiency irr1 fo1 fp1 sf1) by lra.
  rewrite (recommended_size_value usage1 irr1 fo1 fp1 sf1 He1).
  rewrite (recommended_size_value usage2 irr2 fo2 fp2 sf2 He2).
  set (e1 := efficiency irr1 fo1 fp1 sf1) in *.
  set (e2 := efficiency irr2 fo2 fp2 sf2) in *.
  clearbody e1 e2.
  do 2 eexists. split; [reflexivity |]. split; [reflexivity |].
  assert (Hcross : usage1 * e2 <= usage2 * e1).
  { apply Qle_trans with (usage1 * e1).
    - rewrite !(Qmult_comm usage1). apply Qmult_le_compat_r; lra.
    - apply Qmult_le_compat_r; lra. }
  assert (Hq : usage1 * 0.9 / (e1 * 0.86) <= usage2 * 0.9 / (e2 * 0.86)).
  { apply Qle_shift_div_l; [lra |].
    assert (Heq : usage1 * 0.9 / (e1 * 0.86) * (e2 * 0.86)
                  == usage1 * 0.9 * (e2 * 0.86) / (e1 * 0.86)) by (field; lra).
    rewrite Heq. apply Qle_shift_div_r; lra. }
  assert (Hq0 : 0 <= usage1 * 0.9 / (e1 * 0.86)).
  { apply Qle_shift_div_l; lra. }
  revert Hq Hq0.
  generalize (usage1 * 0.9 / (e1 * 0.86)) (usage2 * 0.9 / (e2 * 0.86)).
  intros q1 q2 Hq Hq0.
  pose proof (round_half_up_le (q1 * 10)) as Hle.
  pose proof (round_half_up_gt (q1 * 10)) as Hgt.
  pose proof (round_half_up_nonneg (q1 * 10)) as Hz.
  assert (Hm : (JS.round_half_up (q1 * 10) <= JS.round_half_up (q2 * 10))%Z)
    by (apply round_half_up_mono; lra).
  rewrite Zle_Qle in Hm.
  split; [| split].
  - inv_const. lra.
  - inv_const. lra.
  - intros _. apply one_decimal_near_of. repeat split.
    + exists (JS.round_half_up (q1 * 10)). reflexivity.
    + inv_const. lra.
    + inv_const. lra.
Qed.

Lemma recommended_size_monotone_witness :
  exists small large : Q,
    calculateRecommendedSize 3000 1000 1 1 1 = JS.Fin small
    /\ calculateRecommendedSize 3500 1000 0.8 1 1 = JS.Fin large
    /\ 0 <= small /\ small <= large
    /\ (3000 * 0.9 / (efficiency 1000 1 1 1 * 0.86) <= 1000000 ->
        one_decimal_near (3000 * 0.9 / (efficiency 1000 1 1 1 * 0.86)) small).
Proof.
  apply (recommended_size_monotone 3000 3500 1000 1 1 1 1000 0.8 1 1);
    vm_compute; repeat split; discriminate.
Defined.

(* ================================================================== *)
(** ** Generation, cost and money *)
(* ================================================================== *)


Lemma annual_generation_value (size irr fo fp sf : Q) :
  calculateAnnualGeneration size irr fo fp sf
  = JS.Fin (inject_Z (JS.round_half_up (size * irr * fo * fp * sf * 0.86))).
Proof. unfold calculateAnnualGeneration. cbn [systemLossFactor SOLAR_CONFIG]. js_fin. reflexivity. Qed.



Lemma system_cost_small (s : Q) :
  s <= 3 -> calculateSystemCost s = JS.Fin (inject_Z (JS.round_half_up (s * 1500))).
Proof.
  intros H. unfold calculateSystemCost. cbn [smallMaxKwp SYSTEM_COST_CONFIG costPerKwpSmall].
  rewrite leb_fin_true by exact H. js_fin. reflexivity.
Qed.

Lemma system_cost_medium (s : Q) :
  3 < s -> s <= 6 -> calculateSystemCost s = JS.Fin (inject_Z (JS.round_half_up (s * 1300))).
Proof.
  intros H3 H6. unfold calculateSystemCost.
  cbn [smallMaxKwp mediumMaxKwp SYSTEM_COST_CONFIG costPerKwpMedium].
  rewrite leb_fin_false by exact H3. rewrite leb_fin_true by exact H6. js_fin. reflexivity.
Qed.

Lemma system_cost_large (s : Q) :
  6 < s -> calculateSystemCost s = JS.Fin (inject_Z (JS.round_half_up (s * 1100))).
Proof.
  intros H6. unfold calculateSystemCost.
  cbn [smallMaxKwp mediumMaxKwp SYSTEM_COST_CONFIG costPerKwpLarge].
  rewrite leb_fin_false by lra. rewrite leb_fin_false by exact H6. js_fin. reflexivity.
Qed.

Lemma system_cost_integer (s : Q) :
  exists c : Z, calculateSystemCost s = JS.Fin (inject_Z c) /\ (0 <= s -> (0 <= c)%Z).
Proof.
  destruct (Qlt_le_dec 3 s) as [H3 | H3]; [destruct (Qlt_le_dec 6 s) as [H6 | H6] |].
  - rewrite system_cost_large by exact H6. eexists. split; [reflexivity |].
    intros _. rewrite <- (round_half_up_Z 0). apply round_half_up_mono.
    change (inject_Z 0) with 0. lra.
  - rewrite system_cost_medium by assumption. eexists. split; [reflexivity |].
    intros _. rewrite <- (round_half_up_Z 0). apply round_half_up_mono.
    change (inject_Z 0) with 0. lra.
  - rewrite system_cost_small by exact H3. eexists. split; [reflexivity |].
    intros H0. rewrite <- (round_half_up_Z 0). apply round_half_up_mono.
    change (inject_Z 0) with 0. lra.
Qed.

(** X5: calculateSystemCost is not monotone at its tier boundaries: every system
    of more than 3 and at most 3.4 kWp costs strictly less than a 3 kWp
    system, and every system of more than 6 and at most 7 kWp costs strictly
    less than a 6 kWp system, because the lower rate per kWp of the next
    tier applies to the whole size. *)
Theorem system_cost_tier_drop (s : Q) :
  (3 < s -> s <= 3.4 -> fin_lt (calculateSystemCost s) (calculateSystemCost 3))
  /\ (6 < s -> s <= 7 -> fin_lt (calculateSystemCost s) (calculateSystemCost 6)).
Proof.
  split.
  - intros Hlo Hhi. rewrite system_cost_medium by lra.
    rewrite (system_cost_small 3) by lra. cbn [fin_lt].
    assert (Hz : (JS.round_half_up (s * 1300) <= 4420)%Z).
    { rewrite <- (round_half_up_Z 4420). apply round_half_up_mono.
      unfold inject_Z. lra. }
    rewrite Zle_Qle in Hz.
    replace (JS.round_half_up (3 * 1500)) with 4500%Z by (vm_compute; reflexivity).
    unfold inject_Z in *. lra.
  - intros Hlo Hhi. rewrite system_cost_large by lra.
    rewrite (system_cost_medium 6) by lra. cbn [fin_lt].
    assert (Hz : (JS.round_half_up (s * 1100) <= 7700)%Z).
    { rewrite <- (round_half_up_Z 7700). apply round_half_up_mono.
      unfold inject_Z. lra. }
    rewrite Zle_Qle in Hz.
    replace (JS.round_half_up (6 * 1300)) with 7800%Z by (vm_compute; reflexivity).
    unfold inject_Z in *. lra.
Qed.

Lemma system_cost_tier_drop_witness :
  fin_lt (calculateSystemCost 6.5) (calculateSystemCost 6).
Proof. apply (proj2 (system_cost_tier_drop 6.5)); [reflexivity | discriminate]. Defined.

Lemma pounds_of_pence (pence : Q) :
  whole_pence_of pence (inject_Z (JS.round_half_up pence) / 100)
  /\ (0 <= pence -> 0 <= inject_Z (JS.round_half_up pence) / 100).
Proof.
  pose proof (round_half_up_le pence) as Hle.
  pose proof (round_half_up_gt pence) as Hgt.
  pose proof (round_half_up_nonneg pence) as Hz.
  split; [repeat split |].
  - exists (JS.round_half_up pence). reflexivity.
  - inv_const. lra.
  - inv_const. lra.
  - intros H. specialize (Hz H). inv_const. lra.
Qed.

Lemma whole_pence_near_of (pence v : Q) :
  whole_pence_of pence v -> whole_pence_near pence v.
Proof.
  intros ((k & Hk) & Hlo & Hhi). split.
  - apply (near_multiple_exact _ _ k). rewrite Hk. inv_const. lra.
  - apply Qabs_Qle_condition. split; lra.
Qed.

(** X6: calculateAnnualSavings and calculateExportEarnings called without a rate
    use the configured electricity rate and the configured export rate; with
    a rate given, and kWh * rate at most 10^9 pence in absolute value, both
    compute the same finite value, an amount of pounds with whole pence
    within 0.0051 pounds of kWh * rate / 100, which is not negative when kWh
    and rate are not negative. *)
Theorem savings_and_earnings_spec (kwh rate : Q) :
  calculateAnnualSavings kwh None
  = calculateAnnualSavings kwh (Some (JS.Fin (electricityRatePence UK_ENERGY_CONFIG)))
  /\ calculateExportEarnings kwh None
     = calculateExportEarnings kwh (Some (JS.Fin (segExportRatePence UK_ENERGY_CONFIG)))
  /\ (Qabs (kwh * rate) <= 1000000000 ->
      exists savings earnings : Q,
        calculateAnnualSavings kwh (Some (JS.Fin rate)) = JS.Fin savings
        /\ calculateExportEarnings kwh (Some (JS.Fin rate)) = JS.Fin earnings
        /\ savings == earnings
        /\ whole_pence_near (kwh * rate) savings
        /\ (0 <= kwh -> 0 <= rate -> 0 <= savings)).
Proof.
  split; [reflexivity |]. split; [reflexivity |]. intros _.
  unfold calculateAnnualSavings, calculateExportEarnings. cbn [JS.default_argument].
  js_fin. do 2 eexists. split; [reflexivity |]. split; [reflexivity |].
  split; [reflexivity |].
  destruct (pounds_of_pence (kwh * rate)) as [Hw Hpos].
  split; [apply whole_pence_near_of; exact Hw |].
  intros Hk Hr. apply Hpos. apply Qmult_le_0_compat; assumption.
Qed.

(* ================================================================== *)
(** ** Carbon savings and the monthly split *)
(* ================================================================== *)

Lemma co2_loop_fin (g : Q) (years : list nat) :
  forall acc : Q,
    exists t : Q,
      fold_left
        (fun (totalGeneration : JS.number) (year : nat) =>
           (totalGeneration
            + JS.Fin g * JS.pow (JS.Fin 1 - JS.Fin (annualDegradation SOLAR_CONFIG))
                           (year - 1))%js)
        years (JS.Fin acc) = JS.Fin t
      /\ t == acc + g * degradation_sum (1 - annualDegradation SOLAR_CONFIG) years.
Proof.
  induction years as [| year years IH]; intros acc;
    cbn [fold_left degradation_sum fold_right].
  - exists acc. split; [reflexivity | ring].
  - js_fin. destruct (IH (acc + g * JS.pow_nat (1 + - annualDegradation SOLAR_CONFIG) (year - 1)))
      as (t & Ht & Hsum).
    exists t. split; [exact Ht |].
    rewrite Hsum. unfold degradation_sum, Qminus. ring.
Qed.

(** The CO2 saved over 25 years by a generation that is not negative, read
    off the bounds of the sum of the factors. *)
Lemma co2_25_value (g : Q) (k : Z) :
  0 <= g ->
  inject_Z k - (1 # 2) <= g * 23.5558 * 0.233 ->
  g * 23.556 * 0.233 < inject_Z k + (1 # 2) ->
  calculateCO2Savings25Years g = JS.Fin (inject_Z k).
Proof.
  intros Hpos Hlo Hhi. unfold calculateCO2Savings25Years.
  destruct (co2_loop_fin g years25 0) as (t & Ht & Hsum).
  rewrite Ht. cbn [gridCarbonFactor SOLAR_CONFIG]. js_fin.
  f_equal. f_equal. apply round_half_up_eq.
  - destruct degradation_sum_25_fine as [Hs1 Hs2]. rewrite Hsum.
    assert (g * 23.5558
            <= g * degradation_sum (1 - annualDegradation SOLAR_CONFIG) years25).
    { rewrite !(Qmult_comm g). apply Qmult_le_compat_r; lra. }
    lra.
  - destruct degradation_sum_25_fine as [Hs1 Hs2]. rewrite Hsum.
    assert (g * degradation_sum (1 - annualDegradation SOLAR_CONFIG) years25
            <= g * 23.556).
    { rewrite !(Qmult_comm g). apply Qmult_le_compat_r; lra. }
    lra.
Qed.

(** The environmental figures of [calculations.test.ts]. *)
Example test_environment :
  (calculateCO2Savings 3500 === 816)%js
  /\ (calculateCO2Savings25Years 3500 <=? calculateCO2Savings 3500 * 25)%js = true
  /\ (calculateCO2Savings25Years 3500 >=? calculateCO2Savings 3500 * 20)%js = true.
Proof.
  assert (H25 : calculateCO2Savings25Years 3500 = JS.Fin (inject_Z 19210)).
  { apply co2_25_value; vm_compute; first [discriminate | reflexivity]. }
  rewrite H25. repeat split; vm_compute; reflexivity.
Qed.







(* ================================================================== *)
(** ** The shape of the pitch factor *)
(* ================================================================== *)

(** Every pitch in (0, 90] lies in exactly one segment, open on the left. *)
Lemma pitch_segment_cover (p : Q) :
  0 < p -> p <= 90 ->
  exists (lo hi : Z) (flo fhi : Q),
    In ((lo, flo), (hi, fhi)) anchor_pairs /\ inject_Z lo < p /\ p <= inject_Z hi.
Proof.
  intros H0 H90.
  destruct (Qlt_le_dec 10 p) as [H10 | H10];
    [| exists 0%Z, 10%Z, 0.9, 0.94; (split; [cbn; tauto | unfold inject_Z; split; lra])].
  destruct (Qlt_le_dec 15 p) as [H15 | H15];
    [| exists 10%Z, 15%Z, 0.94, 0.96; (split; [cbn; tauto | unfold inject_Z; split; lra])].
  destruct (Qlt_le_dec 20 p) as [H20 | H20];
    [| exists 15%Z, 20%Z, 0.96, 0.98; (split; [cbn; tauto | unfold inject_Z; split; lra])].
  destruct (Qlt_le_dec 25 p) as [H25 | H25];
    [| exists 20%Z, 25%Z, 0.98, 0.99; (split; [cbn; tauto | unfold inject_Z; split; lra])].
  destruct (Qlt_le_dec 30 p) as [H30 | H30];
    [| exists 25%Z, 30%Z, 0.99, 1.0; (split; [cbn; tauto | unfold inject_Z; split; lra])].
  destruct (Qlt_le_dec 35 p) as [H35 | H35];
    [| exists 30%Z, 35%Z, 1.0, 1.0; (split; [cbn; tauto | unfold inject_Z; split; lra])].
  destruct (Qlt_le_dec 40 p) as [H40 | H40];
    [| exists 35%Z, 40%Z, 1.0, 0.99; (split; [cbn; tauto | unfold inject_Z; split; lra])].
  destruct (Qlt_le_dec 45 p) as [H45 | H45];
    [| exists 40%Z, 45%Z, 0.99, 0.97; (split; [cbn; tauto | unfold inject_Z; split; lra])].
  destruct (Qlt_le_dec 50 p) as [H50 | H50];
    [| exists 45%Z, 50%Z, 0.97, 0.94; (split; [cbn; tauto | unfold inject_Z; split; lra])].
  destruct (Qlt_le_dec 60 p) as [H60 | H60];
    [| exists 50%Z, 60%Z, 0.94, 0.88; (split; [cbn; tauto | unfold inject_Z; split; lra])].
  destruct (Qlt_le_dec 70 p) as [H70 | H70];
    [| exists 60%Z, 70%Z, 0.88, 0.8; (split; [cbn; tauto | unfold inject_Z; split; lra])].
  destruct (Qlt_le_dec 80 p) as [H80 | H80];
    [| exists 70%Z, 80%Z, 0.8, 0.7; (split; [cbn; tauto | unfold inject_Z; split; lra])].
  exists 80%Z, 90%Z, 0.7, 0.55; (split; [cbn; tauto | unfold inject_Z; split; lra]).
Qed.

(** The factor on a segment: the value at the lower anchor plus the share
    [r] of the way to the upper one. *)
Lemma getPitchFactor_segment (lo hi : Z) (flo fhi p : Q) :
  In ((lo, flo), (hi, fhi)) anchor_pairs ->
  inject_Z lo < p -> p <= inject_Z hi -> p < 90 ->
  exists v r : Q,
    getPitchFactor p = JS.Fin v
    /\ v == flo + r * (fhi - flo)
    /\ r * (inject_Z hi - inject_Z lo) == p - inject_Z lo.
Proof.
  intros Hin Hlo Hhi H90.
  destruct (anchor_pairs_neighbours lo hi flo fhi Hin) as (Hl & Hh & Hrange & _ & Hsplit).
  assert (H0 : 0 <= inject_Z lo).
  { change 0 with (inject_Z 0). rewrite <- Zle_Qle. lia. }
  unfold getPitchFactor. rewrite clamp_inside by lra.
  pose proof pitches_increasing as Hinc. rewrite Hsplit in Hinc |- *.
  rewrite pitch_scan_neighbours by (try exact Hinc; lra).
  destruct (interpolate_fin lo hi flo fhi p) as (v & -> & Hv);
    [apply pitch_factor_at_In; exact Hl | apply pitch_factor_at_In; exact Hh | lia |].
  exists v, ((p - inject_Z lo) / (inject_Z hi - inject_Z lo)).
  split; [reflexivity |]. split; [exact Hv |].
  field. lra.
Qed.

(** In exact arithmetic the factor is 1 on the plateau from 30 to 35 degrees
    and nowhere else. *)
Lemma pitch_factor_profile (pitch : JS.number) :
  exists f : Q,
    getPitchFactor pitch = JS.Fin f
    /\ 0.55 <= f /\ f <= 1
    /\ (JS.is_nan pitch = true -> f == 1)
    /\ (forall p : Q, pitch = JS.Fin p -> (f == 1 <-> 30 <= p /\ p <= 35)).
Proof.
  destruct pitch as [p | | |].
  - destruct (Qlt_le_dec 0 p) as [Hpos | Hneg]; [destruct (Qlt_le_dec p 90) as [Hlt | Hge] |].
    + destruct (pitch_segment_cover p Hpos (Qlt_le_weak _ _ Hlt))
        as (lo & hi & flo & fhi & Hin & Hlo & Hhi).
      destruct (getPitchFactor_segment lo hi flo fhi p Hin Hlo Hhi Hlt)
        as (v & r & Hv & Hval & Hr).
      exists v. split; [exact Hv |].
      assert (Hgoal : 0.55 <= v /\ v <= 1 /\ (v == 1 <-> 30 <= p /\ p <= 35)).
      { unfold anchor_pairs, PITCH_FACTORS in Hin. cbn [combine tl In] in Hin.
        repeat (destruct Hin as [Hin | Hin];
                [injection Hin as <- <- <- <-; unfold inject_Z in *;
                 split; [lra | split; [lra | split;
                   [intros Hv1; split; lra | intros [H30 H35]; lra]]] |]).
        contradiction. }
      destruct Hgoal as (Hl & Hu & Hiff).
      split; [exact Hl |]. split; [exact Hu |]. split; [discriminate |].
      intros q [= <-]. exact Hiff.
    + unfold getPitchFactor. rewrite clamp_above by exact Hge.
      eexists. split; [vm_compute; reflexivity |].
      split; [vm_compute; discriminate |]. split; [vm_compute; discriminate |].
      split; [discriminate |].
      intros q [= <-]. split; [intros H; vm_compute in H; discriminate | lra].
    + destruct (Qlt_le_dec p 0) as [Hlt | Hge].
      * unfold getPitchFactor. rewrite clamp_below by exact Hlt.
        eexists. split; [vm_compute; reflexivity |].
        split; [vm_compute; discriminate |]. split; [vm_compute; discriminate |].
        split; [discriminate |].
        intros q [= <-]. split; [intros H; vm_compute in H; discriminate | lra].
      * unfold getPitchFactor. rewrite clamp_inside by lra.
        rewrite pitches_sorted. rewrite pitch_scan_hit by (unfold inject_Z; lra).
        destruct (interpolate_fin 0 10 0.9 0.94 p eq_refl eq_refl eq_refl) as (v & -> & Hv).
        exists v. split; [reflexivity |].
        assert (Hp : p == 0) by lra.
        assert (Hv0 : v == 0.9).
        { rewrite Hv, Hp. reflexivity. }
        split; [lra |]. split; [lra |]. split; [discriminate |].
        intros q [= <-]. split; [intros H; lra | lra].
  - eexists. split; [vm_compute; reflexivity |].
    split; [vm_compute; discriminate |]. split; [vm_compute; discriminate |].
    split; discriminate.
  - eexists. split; [vm_compute; reflexivity |].
    split; [vm_compute; discriminate |]. split; [vm_compute; discriminate |].
    split; discriminate.
  - eexists. split; [vm_compute; reflexivity |].
    split; [vm_compute; discriminate |]. split; [vm_compute; discriminate |].
    split; [intros _; vm_compute; reflexivity | discriminate].
Qed.

(** X9: For every pitch, NaN and the infinities included, getPitchFactor returns
    a finite factor between 0.55 and 1; for NaN it returns 1 (the fallback
    after the loop); for a finite pitch the factor is 1 when the pitch is
    between 30 and 35 degrees, and only when it is within 10^-6 of that
    range. *)
Theorem pitch_factor_range (pitch : JS.number) :
  exists f : Q,
    getPitchFactor pitch = JS.Fin f
    /\ 0.55 <= f /\ f <= 1
    /\ (JS.is_nan pitch = true -> f == 1)
    /\ (forall p : Q,
          pitch = JS.Fin p ->
          (30 <= p /\ p <= 35 -> f == 1)
          /\ (f == 1 -> 30 - (1 # 1000000) <= p /\ p <= 35 + (1 # 1000000))).
Proof.
  destruct (pitch_factor_profile pitch) as (f & Hf & Hlo & Hhi & Hnan & Hiff).
  exists f. split; [exact Hf |]. split; [exact Hlo |]. split; [exact Hhi |].
  split; [exact Hnan |].
  intros p Hp. destruct (Hiff p Hp) as [Hone Hplateau]. split.
  - exact Hplateau.
  - intros H1. destruct (Hone H1) as [H30 H35]. split; lra.
Qed.

Lemma clamp_value (p : Q) :
  exists c : Q,
    JS.max 0 (JS.min 90 p) = JS.Fin c
    /\ 0 <= c /\ c <= 90
    /\ (p <= 0 -> c == 0) /\ (90 <= p -> c == 90) /\ (0 <= p -> p <= 90 -> c == p).
Proof.
  destruct (Qlt_le_dec p 0) as [Hneg | Hpos].
  - exists 0. rewrite clamp_below by exact Hneg. repeat split; intros; lra.
  - destruct (Qlt_le_dec p 90) as [Hlt | Hge].
    + exists p. rewrite clamp_inside by assumption. repeat split; intros; lra.
    + exists 90. rewrite clamp_above by exact Hge. repeat split; intros; lra.
Qed.

(** The loop's answer on a clamped pitch: a point of one segment of the
    table, [r] of the way from its lower to its upper anchor. *)
Lemma pitch_scan_cases (c : Q) :
  0 <= c -> c <= 90 ->
  exists (v : Q) (lo hi : Z) (flo fhi r : Q),
    pitch_scan c (JS.sort_asc (map fst PITCH_FACTORS)) = Some (JS.Fin v)
    /\ In ((lo, flo), (hi, fhi)) anchor_pairs
    /\ inject_Z lo <= c /\ c <= inject_Z hi
    /\ v == flo + r * (fhi - flo)
    /\ r * (inject_Z hi - inject_Z lo) == c - inject_Z lo.
Proof.
  intros H0 H90.
  assert (Hinterp : forall lo hi flo fhi,
             In ((lo, flo), (hi, fhi)) anchor_pairs ->
             exists v r : Q,
               interpolate lo hi c = JS.Fin v
               /\ v == flo + r * (fhi - flo)
               /\ r * (inject_Z hi - inject_Z lo) == c - inject_Z lo).
  { intros lo hi flo fhi Hin.
    destruct (anchor_pairs_neighbours lo hi flo fhi Hin) as (Hl & Hh & Hrange & _).
    destruct (interpolate_fin lo hi flo fhi c) as (v & Hv & Hval);
      [apply pitch_factor_at_In; exact Hl | apply pitch_factor_at_In; exact Hh | lia |].
    exists v, ((c - inject_Z lo) / (inject_Z hi - inject_Z lo)).
    split; [exact Hv |]. split; [exact Hval |].
    field. assert (inject_Z lo < inject_Z hi) by (rewrite <- Zlt_Qlt; lia). lra. }
  destruct (Qlt_le_dec 0 c) as [Hpos | Hzero].
  - destruct (pitch_segment_cover c Hpos H90) as (lo & hi & flo & fhi & Hin & Hlo & Hhi).
    destruct (Hinterp lo hi flo fhi Hin) as (v & r & Hv & Hval & Hr).
    exists v, lo, hi, flo, fhi, r.
    destruct (anchor_pairs_neighbours lo hi flo fhi Hin) as (_ & _ & _ & _ & Hsplit).
    pose proof pitches_increasing as Hinc. rewrite Hsplit in Hinc |- *.
    rewrite pitch_scan_neighbours by (try exact Hinc; lra).
    rewrite Hv. repeat split; try assumption; lra.
  - assert (Hin : In ((0%Z, 0.9), (10%Z, 0.94)) anchor_pairs) by (cbn; tauto).
    destruct (Hinterp _ _ _ _ Hin) as (v & r & Hv & Hval & Hr).
    exists v, 0%Z, 10%Z, 0.9, 0.94, r.
    rewrite pitches_sorted, pitch_scan_hit by (unfold inject_Z; lra).
    rewrite Hv. repeat split; try assumption; unfold inject_Z; lra.
Qed.

Lemma getPitchFactor_bounds (pitch : Q) :
  exists f : Q, getPitchFactor pitch = JS.Fin f /\ 0.55 <= f /\ f <= 1.
Proof.
  unfold getPitchFactor.
  destruct (clamp_value pitch) as (c & -> & Hc0 & Hc90 & _).
  destruct (pitch_scan_cases c Hc0 Hc90)
    as (f & lo & hi & flo & fhi & r & -> & Hin & Hlo & Hhi & Hv & Hr).
  exists f. split; [reflexivity |].
  unfold anchor_pairs, PITCH_FACTORS in Hin. cbn [combine tl In] in Hin.
  repeat (destruct Hin as [Hin | Hin];
          [injection Hin as <- <- <- <-; unfold inject_Z in *; split; lra |]).
  contradiction.
Qed.

(** X10: getPitchFactor rises to the optimum and falls after it: for pitches p <=
    q, the factor of p is at most the factor of q when q <= 30, and at least
    the factor of q when p >= 35, pitches outside [0, 90] being clamped. *)
Theorem pitch_factor_unimodal (p q : Q) :
  p <= q ->
  exists fp fq : Q,
    getPitchFactor p = JS.Fin fp
    /\ getPitchFactor q = JS.Fin fq
    /\ (q <= 30 -> fp <= fq)
    /\ (35 <= p -> fq <= fp).
Proof.
  intros Hpq. unfold getPitchFactor.
  destruct (clamp_value p) as (cp & -> & Hp0 & Hp90 & Hpl & Hph & Hpi).
  destruct (clamp_value q) as (cq & -> & Hq0 & Hq90 & Hql & Hqh & Hqi).
  assert (Hc : cp <= cq).
  { destruct (Qlt_le_dec p 0); [rewrite Hpl by lra; exact Hq0 |].
    destruct (Qlt_le_dec 90 q); [rewrite (Hqh ltac:(lra)); exact Hp90 |].
    rewrite Hpi, Hqi by lra. exact Hpq. }
  assert (Hq30 : q <= 30 -> cq <= 30).
  { intros H. destruct (Qlt_le_dec q 0); [rewrite Hql by lra; lra | rewrite Hqi by lra; exact H]. }
  assert (Hp35 : 35 <= p -> 35 <= cp).
  { intros H. destruct (Qlt_le_dec 90 p); [rewrite Hph by lra; lra | rewrite Hpi by lra; exact H]. }
  clear Hpl Hph Hpi Hql Hqh Hqi.
  destruct (pitch_scan_cases cp Hp0 Hp90)
    as (fp & lo1 & hi1 & flo1 & fhi1 & r1 & -> & Hin1 & Hlo1 & Hhi1 & Hv1 & Hr1).
  destruct (pitch_scan_cases cq Hq0 Hq90)
    as (fq & lo2 & hi2 & flo2 & fhi2 & r2 & -> & Hin2 & Hlo2 & Hhi2 & Hv2 & Hr2).
  exists fp, fq. split; [reflexivity |]. split; [reflexivity |].
  assert (Hgoal : (cq <= 30 -> fp <= fq) /\ (35 <= cp -> fq <= fp)).
  { clear Hq30 Hp35 Hpq.
    unfold anchor_pairs, PITCH_FACTORS in Hin1, Hin2. cbn [combine tl In] in Hin1, Hin2.
    repeat (destruct Hin1 as [Hin1 | Hin1];
            [injection Hin1 as <- <- <- <-;
             repeat (destruct Hin2 as [Hin2 | Hin2];
                     [injection Hin2 as <- <- <- <-; unfold inject_Z in *;
                      split; intros ?; lra |]);
             contradiction |]).
    contradiction. }
  destruct Hgoal as [Hup Hdown]. split; intros H; auto.
Qed.

Lemma pitch_factor_unimodal_witness :
  exists fp fq : Q,
    getPitchFactor 20 = JS.Fin fp
    /\ getPitchFactor 25 = JS.Fin fq
    /\ (25 <= 30 -> fp <= fq)
    /\ (35 <= 20 -> fq <= fp).
Proof. apply (pitch_factor_unimodal 20 25). discriminate. Defined.

(* ================================================================== *)
(** ** The orientation table *)
(* ================================================================== *)

(** X11: For every roof orientation, getOrientationFactor returns a factor
    between 0.55 and 1, equal to 1 only for south and to 0.55 only for
    north, and the same for an orientation and its east-west mirror image (E
    and W, NE and NW, SE and SW). *)
Theorem orientation_factor_order (o : RoofOrientation) :
  exists f : Q,
    getOrientationFactor (orientation_key o) = Some (JS.Fin f)
    /\ 0.55 <= f /\ f <= 1
    /\ (f == 1 <-> o = S)
    /\ (f == 0.55 <-> o = N)
    /\ getOrientationFactor (orientation_key (mirror o))
       = getOrientationFactor (orientation_key o).
Proof.
  destruct o; eexists; (split; [reflexivity |]);
    (split; [vm_compute; discriminate |]);
    (split; [vm_compute; discriminate |]);
    (split; [split; [intros H; vm_compute in H; try discriminate; reflexivity
                    | intros H; try discriminate; reflexivity] |]);
    (split; [split; [intros H; vm_compute in H; try discriminate; reflexivity
                    | intros H; try discriminate; reflexivity] |]);
    reflexivity.
Qed.

(* ================================================================== *)
(** ** The pipeline on its whole domain *)
(* ================================================================== *)

Lemma recommended_size_not_negative (usage irr fo fp sf : Q) :
  0 < usage -> 0 <= efficiency irr fo fp sf ->
  not_negative (calculateRecommendedSize usage irr fo fp sf)
  /\ (sf == 0 -> calculateRecommendedSize usage irr fo fp sf = JS.PosInf).
Proof.
  intros Hu He.
  destruct (Qlt_le_dec 0 (efficiency irr fo fp sf)) as [Hpos | Hzero].
  - split.
    + rewrite recommended_size_value by exact Hpos. cbn [not_negative].
      assert (Hq : 0 <= usage * 0.9 / (efficiency irr fo fp sf * 0.86)).
      { apply Qle_shift_div_l; lra. }
      revert Hq. generalize (usage * 0.9 / (efficiency irr fo fp sf * 0.86)). intros q Hq.
      pose proof (round_half_up_nonneg (q * 10)) as Hz. inv_const. lra.
    + intros Hsf. exfalso. unfold efficiency in Hpos. rewrite Hsf in Hpos. lra.
  - assert (Heff : irr * fo * fp * sf * 0.86 == 0) by (unfold efficiency in *; lra).
    assert (Hinf : calculateRecommendedSize usage irr fo fp sf = JS.PosInf).
    { unfold calculateRecommendedSize. cbn [systemLossFactor SOLAR_CONFIG]. js_fin.
      unfold JS.div at 2.
      rewrite (proj2 (Qeq_bool_iff _ _) Heff).
      assert (Hgt : (usage * 0.9 ?= 0) = Gt) by (apply Qgt_alt; lra).
      rewrite Hgt. reflexivity. }
    rewrite Hinf. split; [exact I | reflexivity].
Qed.

Lemma final_size_not_negative (recommended : JS.number) (maxKwp : Q) :
  not_negative recommended -> 0 <= maxKwp ->
  exists size : Q,
    determineFinalSystemSize recommended maxKwp = JS.Fin size /\ 0 <= size
    /\ (recommended = JS.PosInf ->
        size == inject_Z (JS.round_half_up (maxKwp * 2)) / 2).
Proof.
  intros Hrec Hmax. unfold determineFinalSystemSize.
  destruct recommended as [v | | |]; cbn [not_negative] in Hrec; try contradiction.
  - js_fin. eexists. split; [reflexivity |]. split; [| discriminate].
    assert (Hm : 0 <= (if Qle_bool v maxKwp then v else maxKwp))
      by (destruct (Qle_bool v maxKwp); assumption).
    pose proof (round_half_up_nonneg ((if Qle_bool v maxKwp then v else maxKwp) * 2)) as Hz.
    inv_const. lra.
  - cbn [JS.min]. js_fin. eexists. split; [reflexivity |]. split; [| reflexivity].
    pose proof (round_half_up_nonneg (maxKwp * 2)) as Hz. inv_const. lra.
Qed.

Lemma payback_not_negative (cost benefit : Q) :
  0 <= cost -> not_negative (calculatePaybackPeriod cost benefit)
  /\ (benefit <= 0 -> calculatePaybackPeriod cost benefit = JS.PosInf).
Proof.
  intros Hc. unfold calculatePaybackPeriod.
  destruct (Qlt_le_dec 0 benefit) as [Hpos | Hneg].
  - rewrite leb_fin_false by exact Hpos. js_fin. cbn [not_negative]. split; [| lra].
    assert (Hq : 0 <= cost / benefit) by (apply Qle_shift_div_l; lra).
    revert Hq. generalize (cost / benefit). intros q Hq.
    pose proof (round_half_up_nonneg (q * 10)) as Hz. inv_const. lra.
  - rewrite leb_fin_true by exact Hneg. split; [exact I | reflexivity].
Qed.

(** Rounding a share of an integer amount never exceeds the amount. *)
Lemma round_share_le (g : Z) (ratio : Q) :
  (0 <= g)%Z -> 0 <= ratio -> ratio <= 1 ->
  (0 <= JS.round_half_up (inject_Z g * ratio) <= g)%Z.
Proof.
  intros Hg H0 H1.
  assert (Hq : 0 <= inject_Z g) by (change 0 with (inject_Z 0); rewrite <- Zle_Qle; exact Hg).
  split.
  - rewrite <- (round_half_up_Z 0). apply round_half_up_mono.
    change (inject_Z 0) with 0. apply Qmult_le_0_compat; assumption.
  - rewrite <- (round_half_up_Z g) at 2. apply round_half_up_mono.
    rewrite <- (Qmult_1_r (inject_Z g)) at 2.
    rewrite !(Qmult_comm (inject_Z g)). apply Qmult_le_compat_r; assumption.
Qed.

Lemma absent_or_within_not_negative (bound : Q) (v : option Q) :
  absent_or_within bound v -> absent_or_not_negative v.
Proof. destruct v as [q |]; cbn; [intros [H _]; exact H | trivial]. Qed.

Lemma or_default_not_negative (override : option Q) (fallback : Q) :
  absent_or_not_negative override -> 0 < fallback ->
  exists v : Q,
    JS.to_number (JS.or (option_map JS.Fin override) (Some (JS.Fin fallback))) = JS.Fin v
    /\ 0 < v.
Proof.
  intros Hov Hf. destruct (or_default_fin override fallback) as (v & Hv & [-> | [-> Hnz]]).
  - exists fallback. split; assumption.
  - exists v. split; [exact Hv |]. cbn [absent_or_not_negative] in Hov.
    destruct (Qlt_le_dec 0 v) as [Hpos | Hle]; [exact Hpos |].
    exfalso. apply Hnz. lra.
Qed.

(** X12: For inputs with a roof area between 0 and 10^6 m2, a positive annual
    usage, a shading factor that is positive and at most 1, and an
    irradiance argument and rate overrides that are absent or between 0 and
    10^6, calculateSolarEstimate returns a finite system size, panel count,
    generation, self-consumed and exported energy, savings, export earnings
    and system cost, none of them negative; the self-consumed energy is at
    most the generation, totalAnnualBenefit is annualSavings +
    annualExportEarnings, and the payback period is not negative or is the
    infinite sentinel. *)
Theorem estimate_not_negative
    (now : string) (inputs : CalculatorInputs) (irradiance : option Q) :
  0 <= roofArea inputs -> roofArea inputs <= 1000000 ->
  0 < annualElectricityUsage inputs ->
  0 < shadingFactor inputs -> shadingFactor inputs <= 1 ->
  absent_or_within 1000000 irradiance ->
  absent_or_within 1000000 (electricityUnitRate inputs) ->
  absent_or_within 1000000 (exportTariffRate inputs) ->
  let results := calculateSolarEstimate now inputs irradiance in
  exists size panels generation selfConsumed exported savings earnings cost : Q,
    recommendedSystemSize results = JS.Fin size
    /\ numberOfPanels results = JS.Fin panels
    /\ estimatedAnnualGeneration results = JS.Fin generation
    /\ selfConsumedKwh results = JS.Fin selfConsumed
    /\ exportedKwh results = JS.Fin exported
    /\ annualSavings results = JS.Fin savings
    /\ annualExportEarnings results = JS.Fin earnings
    /\ estimatedSystemCost results = JS.Fin cost
    /\ 0 <= size /\ 0 <= panels /\ 0 <= generation
    /\ 0 <= selfConsumed /\ selfConsumed <= generation /\ 0 <= exported
    /\ 0 <= savings /\ 0 <= earnings /\ 0 <= cost
    /\ totalAnnualBenefit results
       = (annualSavings results + annualExportEarnings results)%js
    /\ not_negative (paybackPeriod results).
Proof.
  intros Harea _ Husage Hshade0 _ Hirr Hunit Hexport results. subst results.
  assert (Hshade : 0 <= shadingFactor inputs) by lra.
  apply absent_or_within_not_negative in Hirr, Hunit, Hexport.
  unfold calculateSolarEstimate.
  cbn [recommendedSystemSize numberOfPanels estimatedAnnualGeneration selfConsumedKwh
       exportedKwh annualSavings annualExportEarnings estimatedSystemCost
       totalAnnualBenefit paybackPeriod].
  destruct (orientation_factor_enumerated (roofOrientation inputs)) as (fo & -> & Hfo & _).
  destruct (self_consumption_enumerated (homeOccupancy inputs)) as (ratio & -> & Hr0 & Hr1).
  destruct (getPitchFactor_bounds (roofPitch inputs)) as (fp & -> & Hfp & _).
  destruct (or_default_not_negative irradiance (ukAverageIrradiance SOLAR_CONFIG) Hirr)
    as (irr & -> & Hirr0); [reflexivity |].
  destruct (or_default_not_negative (electricityUnitRate inputs)
              (electricityRatePence UK_ENERGY_CONFIG) Hunit) as (er & -> & Her);
    [reflexivity |].
  destruct (or_default_not_negative (exportTariffRate inputs)
              (segExportRatePence UK_ENERGY_CONFIG) Hexport) as (xr & -> & Hxr);
    [reflexivity |].
  cbn [JS.to_number].
  rewrite max_size_value.
  assert (Hm : 0 <= inject_Z (JS.round_half_up (roofArea inputs / 5 * 10)) / 10).
  { pose proof (round_half_up_nonneg (roofArea inputs / 5 * 10)) as Hz. inv_const. lra. }
  revert Hm. generalize (inject_Z (JS.round_half_up (roofArea inputs / 5 * 10)) / 10).
  intros m Hm.
  assert (Heff : 0 <= efficiency irr fo fp (shadingFactor inputs)).
  { unfold efficiency. repeat apply Qmult_le_0_compat; lra. }
  destruct (recommended_size_not_negative (annualElectricityUsage inputs) irr fo fp
              (shadingFactor inputs) Husage Heff) as [Hrec _].
  destruct (final_size_not_negative _ m Hrec Hm) as (size & -> & Hsize & _).
  rewrite panel_count_value, annual_generation_value.
  assert (Hn : (0 <= Qceiling (size * 1000 / 400))%Z).
  { change 0%Z with (Qceiling 0). apply Qceiling_resp_le. inv_const. lra. }
  assert (Hg : (0 <= JS.round_half_up
                       (size * irr * fo * fp * shadingFactor inputs * 0.86))%Z).
  { rewrite <- (round_half_up_Z 0). apply round_half_up_mono. change (inject_Z 0) with 0.
    assert (Hk : 0 <= size * (irr * fo * fp * shadingFactor inputs)).
    { apply Qmult_le_0_compat; [exact Hsize | exact Heff]. }
    unfold efficiency in Heff. lra. }
  revert Hn Hg.
  generalize (Qceiling (size * 1000 / 400))
             (JS.round_half_up (size * irr * fo * fp * shadingFactor inputs * 0.86)).
  intros n g Hn Hg.
  destruct (system_cost_integer size) as (c & -> & Hc). specialize (Hc Hsize).
  destruct (round_share_le g ratio Hg) as [Hsc0 Hsc1]; [lra | lra |].
  unfold calculateAnnualSavings, calculateExportEarnings, JS.default_argument. js_fin.
  set (sc := JS.round_half_up (inject_Z g * ratio)) in *.
  rewrite Zle_Qle in Hn, Hg, Hc, Hsc0, Hsc1. change (inject_Z 0) with 0 in *.
  assert (Hex : 0 <= inject_Z g + - inject_Z sc) by lra.
  destruct (pounds_of_pence (inject_Z sc * er)) as [_ Hsav].
  destruct (pounds_of_pence ((inject_Z g + - inject_Z sc) * xr)) as [_ Hearn].
  specialize (Hsav ltac:(apply Qmult_le_0_compat; lra)).
  specialize (Hearn ltac:(apply Qmult_le_0_compat; lra)).
  do 8 eexists.
  repeat (split; [reflexivity |]).
  repeat (split; [first [assumption | lra] |]).
  split; [reflexivity |].
  apply payback_not_negative. exact Hc.
Qed.

Lemma estimate_not_negative_witness :
  let results := calculateSolarEstimate "2026-01-15T09:00:00.000Z" validInputs None in
  exists size panels generation selfConsumed exported savings earnings cost : Q,
    recommendedSystemSize results = JS.Fin size
    /\ numberOfPanels results = JS.Fin panels
    /\ estimatedAnnualGeneration results = JS.Fin generation
    /\ selfConsumedKwh results = JS.Fin selfConsumed
    /\ exportedKwh results = JS.Fin exported
    /\ annualSavings results = JS.Fin savings
    /\ annualExportEarnings results = JS.Fin earnings
    /\ estimatedSystemCost results = JS.Fin cost
    /\ 0 <= size /\ 0 <= panels /\ 0 <= generation
    /\ 0 <= selfConsumed /\ selfConsumed <= generation /\ 0 <= exported
    /\ 0 <= savings /\ 0 <= earnings /\ 0 <= cost
    /\ totalAnnualBenefit results
       = (annualSavings results + annualExportEarnings results)%js
    /\ not_negative (paybackPeriod results).
Proof.
  apply estimate_not_negative; cbn; try exact I; try discriminate; reflexivity.
Defined.

(* ================================================================== *)
(** ** The calculate endpoint *)
(* ================================================================== *)

Lemma not_a_number_within_false (lo hi : Q) (v : json) :
  not_a_number_within lo hi v = false <-> exists q : Q, v = JNumber q /\ lo <= q /\ q <= hi.
Proof.
  split.
  - destruct v as [| | b | q | s | s |]; cbn; try discriminate.
    intros H. apply orb_false_elim in H as [H1 H2].
    apply negb_false_iff in H1, H2. apply Qle_bool_iff in H1, H2.
    exists q. auto.
  - intros (q & -> & H1 & H2). cbn.
    apply Qle_bool_iff in H1, H2. rewrite H1, H2. reflexivity.
Qed.

Lemma includes_orientation (v : json) :
  includes_string validOrientations v = true
  <-> exists o : RoofOrientation, v = JString (orientation_key o).
Proof.
  split.
  - destruct v as [| | b | q | s' | s |]; cbn; try discriminate.
    intros H.
    repeat (apply orb_prop in H as [H | H];
            [apply String.eqb_eq in H; subst s;
             first [now exists N | now exists NE | now exists E
                   | now exists SE | now exists S | now exists SW
                   | now exists W | now exists NW | now exists flat] |]).
    discriminate.
  - intros (o & ->). destruct o; reflexivity.
Qed.

Lemma includes_occupancy (v : json) :
  includes_string validOccupancy v = true
  <-> exists o : HomeOccupancy, v = JString (occupancy_key o).
Proof.
  split.
  - destruct v as [| | b | q | s' | s |]; cbn; try discriminate.
    intros H.
    repeat (apply orb_prop in H as [H | H];
            [apply String.eqb_eq in H; subst s;
             first [now exists always | now exists daytime | now exists evening
                   | now exists variable] |]).
    discriminate.
  - intros (o & ->). destruct o; reflexivity.
Qed.

Lemma includes_shading (v : json) :
  includes_number validShading v = true
  <-> exists q : Q, v = JNumber q /\ shading_level q.
Proof.
  unfold shading_level, validShading. split.
  - destruct v as [| | b | q | s' | s |]; cbn [includes_number existsb]; try discriminate.
    intros H. exists q. split; [reflexivity |].
    repeat (apply orb_prop in H as [H | H];
            [apply Qeq_bool_iff in H;
             first [left; lra | right; left; lra | right; right; left; lra
                   | right; right; right; left; lra | right; right; right; right; lra] |]).
    discriminate.
  - intros (q & -> & H). cbn [includes_number existsb].
    destruct H as [H | [H | [H | [H | H]]]];
      [rewrite (proj2 (Qeq_bool_iff q 0)) by lra
      | rewrite (proj2 (Qeq_bool_iff q 0.5)) by lra
      | rewrite (proj2 (Qeq_bool_iff q 0.75)) by lra
      | rewrite (proj2 (Qeq_bool_iff q 0.9)) by lra
      | rewrite (proj2 (Qeq_bool_iff q 1.0)) by lra];
      rewrite ?orb_true_r; reflexivity.
Qed.

Lemma postcode_present (v : json) :
  json_falsy v || not_a_string v = false <-> exists s : string, v = JString s /\ s <> "".
Proof.
  split.
  - destruct v as [| | b | q | s' | s |]; cbn; try discriminate;
      try (rewrite orb_true_r; discriminate).
    destruct s; [discriminate |]. intros _. eexists. split; [reflexivity | discriminate].
  - intros (s & -> & Hs). destruct s; [contradiction | reflexivity].
Qed.

(** What the checks of [validateInputs] amount to. *)
Lemma validateInputs_checks (raw : RawInputs) :
  valid (validateInputs raw) = true
  <-> (json_falsy (raw_postcode raw) || not_a_string (raw_postcode raw) = false
       /\ not_a_number_within 49 61 (raw_latitude raw) = false
       /\ not_a_number_within (-8) 2 (raw_longitude raw) = false
       /\ includes_string validOrientations (raw_roofOrientation raw) = true
       /\ not_a_number_within 0 90 (raw_roofPitch raw) = false
       /\ not_a_number_within 5 500 (raw_roofArea raw) = false
       /\ includes_number validShading (raw_shadingFactor raw) = true
       /\ not_a_number_within 500 50000 (raw_annualElectricityUsage raw) = false
       /\ includes_string validOccupancy (raw_homeOccupancy raw) = true).
Proof.
  unfold validateInputs.
  destruct (json_falsy (raw_postcode raw) || not_a_string (raw_postcode raw));
    [cbn; intuition discriminate |].
  destruct (not_a_number_within 49 61 (raw_latitude raw)); [cbn; intuition discriminate |].
  destruct (not_a_number_within (-8) 2 (raw_longitude raw)); [cbn; intuition discriminate |].
  destruct (includes_string validOrientations (raw_roofOrientation raw));
    [| cbn; intuition discriminate].
  destruct (not_a_number_within 0 90 (raw_roofPitch raw)); [cbn; intuition discriminate |].
  destruct (not_a_number_within 5 500 (raw_roofArea raw)); [cbn; intuition discriminate |].
  destruct (includes_number validShading (raw_shadingFactor raw));
    [| cbn; intuition discriminate].
  destruct (not_a_number_within 500 50000 (raw_annualElectricityUsage raw));
    [cbn; intuition discriminate |].
  destruct (includes_string validOccupancy (raw_homeOccupancy raw));
    cbn; intuition discriminate.
Qed.

Lemma validateInputs_accepted (raw : RawInputs) :
  valid (validateInputs raw) = true
  <-> exists inputs : CalculatorInputs, accepted raw inputs.
Proof.
  rewrite validateInputs_checks.
  rewrite postcode_present, !not_a_number_within_false, includes_orientation,
    includes_shading, includes_occupancy.
  split.
  - intros ((pc & Hpc & Hne) & (lat & Hlat & Hlat1 & Hlat2) & (lon & Hlon & Hlon1 & Hlon2)
            & (o & Ho) & (pitch & Hp & Hp1 & Hp2) & (area & Ha & Ha1 & Ha2)
            & (sh & Hs & Hlevel) & (usage & Hu & Hu1 & Hu2) & (occ & Hocc)).
    exists {| postcode := pc; latitude := lat; longitude := lon; roofOrientation := o;
              roofPitch := pitch; roofArea := area; shadingFactor := sh;
              annualElectricityUsage := usage; homeOccupancy := occ;
              electricityUnitRate := None; exportTariffRate := None |}.
    constructor; cbn; auto.
  - intros (inputs & [Hpc Hlat Hlon Ho Hp Ha Hs Hu Hocc]).
    repeat split; eauto.
Qed.

(** X14: validateInputs of the calculate endpoint accepts a request body exactly
    when postcode is a non-empty string, latitude a number in [49, 61],
    longitude a number in [-8, 2], roofOrientation one of the nine
    orientations, roofPitch a number in [0, 90], roofArea a number in [5,
    500], shadingFactor one of 0, 0.5, 0.75, 0.9, 1, annualElectricityUsage
    a number in [500, 50000] and homeOccupancy one of the four occupancies;
    the two rate overrides are not checked; the result carries an error
    message exactly when it is not valid. *)
Theorem validateInputs_spec (raw : RawInputs) :
  (valid (validateInputs raw) = true <-> exists inputs : CalculatorInputs, accepted raw inputs)
  /\ (valid (validateInputs raw) = true <-> error (validateInputs raw) = None).
Proof.
  split; [apply validateInputs_accepted |].
  unfold validateInputs.
  repeat match goal with
         | |- context [if ?b then _ else _] => destruct b
         end; cbn; split; (discriminate || reflexivity).
Qed.

Lemma accepted_to_json (inputs : CalculatorInputs) :
  valid (validateInputs (to_json inputs)) = true ->
  (0 <= roofPitch inputs /\ roofPitch inputs <= 90)
  /\ (5 <= roofArea inputs /\ roofArea inputs <= 500)
  /\ shading_level (shadingFactor inputs)
  /\ (500 <= annualElectricityUsage inputs /\ annualElectricityUsage inputs <= 50000).
Proof.
  intros H. apply validateInputs_accepted in H as (typed & [_ _ _ _ Hp Ha Hs Hu _]).
  cbn [to_json raw_roofPitch raw_roofArea raw_shadingFactor raw_annualElectricityUsage]
    in Hp, Ha, Hs, Hu.
  destruct Hp as ([= ->] & Hp), Ha as ([= ->] & Ha), Hs as ([= ->] & Hs),
    Hu as ([= ->] & Hu).
  auto.
Qed.

(** Rounding keeps a number between two integers between them. *)
Lemma round_half_up_between (lo hi : Z) (x : Q) :
  inject_Z lo <= x -> x <= inject_Z hi -> (lo <= JS.round_half_up x <= hi)%Z.
Proof.
  intros Hlo Hhi. split.
  - rewrite <- (round_half_up_Z lo). apply round_half_up_mono. exact Hlo.
  - rewrite <- (round_half_up_Z hi). apply round_half_up_mono. exact Hhi.
Qed.

(** A factor of at most 1 keeps a positive quantity positive and below its bound. *)
Lemma scale_by_factor (k x bound : Q) :
  0 < k -> k <= bound -> 0 < x -> x <= 1 -> 0 < k * x /\ k * x <= bound.
Proof.
  intros Hk Hb Hx0 Hx1. split.
  - apply Qmult_lt_0_compat; assumption.
  - apply Qle_trans with (k * 1); [| lra].
    apply Qmult_le_l; assumption.
Qed.

(** The size the pipeline settles on, from the ranges of its arguments. *)
Lemma final_size_between (usage irr fo fp sf area : Q) :
  500 <= usage -> 0 < irr -> irr <= 1000 -> 0 < fo -> fo <= 1 -> 0 < fp -> fp <= 1 ->
  0 <= sf -> sf <= 1 -> 5 <= area -> area <= 500 ->
  exists size : Q,
    determineFinalSystemSize (calculateRecommendedSize usage irr fo fp sf)
      (calculateMaxSystemSize area) = JS.Fin size
    /\ 0.5 <= size /\ size <= 100.
Proof.
  intros Hu Hi0 Hi1 Hfo0 Hfo1 Hfp0 Hfp1 Hs0 Hs1 Ha0 Ha1.
  rewrite max_size_value.
  destruct (round_half_up_between 10 1000 (area / 5 * 10)) as [Hm0 Hm1];
    [unfold inject_Z; inv_const; lra | unfold inject_Z; inv_const; lra |].
  rewrite Zle_Qle in Hm0, Hm1.
  set (m := inject_Z (JS.round_half_up (area / 5 * 10)) / 10).
  assert (Hm : 1 <= m /\ m <= 100).
  { subst m. change (inject_Z 10) with 10 in Hm0. change (inject_Z 1000) with 1000 in Hm1.
    inv_const. split; lra. }
  clearbody m. clear Hm0 Hm1.
  assert (Hfinal : forall x : Q, 0.5 <= x -> x <= 100 ->
            0.5 <= inject_Z (JS.round_half_up (x * 2)) / 2
            /\ inject_Z (JS.round_half_up (x * 2)) / 2 <= 100).
  { intros x Hx0 Hx1.
    destruct (round_half_up_between 1 200 (x * 2)) as [H0 H1];
      [unfold inject_Z; lra | unfold inject_Z; lra |].
    rewrite Zle_Qle in H0, H1.
    change (inject_Z 1) with 1 in H0. change (inject_Z 200) with 200 in H1.
    inv_const. split; lra. }
  assert (Hif : 0 < irr * fo /\ irr * fo <= 1000) by (apply scale_by_factor; assumption).
  assert (Hiff : 0 < irr * fo * fp /\ irr * fo * fp <= 1000)
    by (apply scale_by_factor; tauto).
  destruct (Qlt_le_dec 0 sf) as [Hpos | Hzero].
  - assert (He : 0 < efficiency irr fo fp sf /\ efficiency irr fo fp sf <= 1000).
    { unfold efficiency. apply scale_by_factor; tauto. }
    rewrite recommended_size_value by apply He.
    revert He. generalize (efficiency irr fo fp sf). intros e He.
    assert (Hq : 0.523 <= usage * 0.9 / (e * 0.86)).
    { apply Qle_shift_div_l; lra. }
    revert Hq. generalize (usage * 0.9 / (e * 0.86)). intros q Hq.
    assert (Hr : (5 <= JS.round_half_up (q * 10))%Z).
    { rewrite <- (round_half_up_Z 5). apply round_half_up_mono. unfold inject_Z. lra. }
    rewrite Zle_Qle in Hr. change (inject_Z 5) with 5 in Hr.
    unfold determineFinalSystemSize. js_fin. eexists. split; [reflexivity |].
    apply Hfinal; destruct (Qle_bool _ m) eqn:Hle;
      try (apply Qle_bool_iff in Hle); inv_const; lra.
  - destruct (recommended_size_not_negative usage irr fo fp sf) as [_ Hinf]; [lra | |].
    { unfold efficiency. assert (Hsf : sf == 0) by lra. rewrite Hsf. lra. }
    rewrite Hinf by lra.
    unfold determineFinalSystemSize. cbn [JS.min]. js_fin. eexists. split; [reflexivity |].
    apply Hfinal; lra.
Qed.

Lemma system_cost_between (size : Q) :
  0.5 <= size -> size <= 100 ->
  exists cost : Z,
    calculateSystemCost size = JS.Fin (inject_Z cost) /\ (750 <= cost <= 110000)%Z.
Proof.
  intros H0 H1.
  destruct (Qlt_le_dec 3 size) as [H3 | H3]; [destruct (Qlt_le_dec 6 size) as [H6 | H6] |].
  - rewrite system_cost_large by exact H6. eexists. split; [reflexivity |].
    destruct (round_half_up_between 6600 110000 (size * 1100)); [unfold inject_Z; lra ..|].
    lia.
  - rewrite system_cost_medium by assumption. eexists. split; [reflexivity |].
    destruct (round_half_up_between 3900 7800 (size * 1300)); [unfold inject_Z; lra ..|].
    lia.
  - rewrite system_cost_small by exact H3. eexists. split; [reflexivity |].
    destruct (round_half_up_between 750 4500 (size * 1500)); [unfold inject_Z; lra ..|].
    lia.
Qed.

(** X15: For every input the calculate endpoint's validateInputs accepts, with a
    shading factor other than 0, the estimate the endpoint then computes
    (calculateSolarEstimate without an irradiance argument) has a system
    size between 0.5 and 100 kWp, between 2 and 250 panels, an annual
    generation between 0 and 86000 kWh, a system cost between 750 and 110000
    pounds, and the irradiance source UK_AVERAGE.  (The endpoint accepts the
    shading factor 0 in both signs, and -0 makes the recommended size
    -Infinity in the code.) *)
Theorem accepted_request_estimate (now : string) (inputs : CalculatorInputs) :
  valid (validateInputs (to_json inputs)) = true ->
  0 < shadingFactor inputs ->
  let results := calculateSolarEstimate now inputs None in
  exists (size : Q) (panels generation cost : Z),
    recommendedSystemSize results = JS.Fin size
    /\ numberOfPanels results = JS.Fin (inject_Z panels)
    /\ estimatedAnnualGeneration results = JS.Fin (inject_Z generation)
    /\ estimatedSystemCost results = JS.Fin (inject_Z cost)
    /\ 0.5 <= size /\ size <= 100
    /\ (2 <= panels <= 250)%Z
    /\ (0 <= generation <= 86000)%Z
    /\ (750 <= cost <= 110000)%Z
    /\ irradianceSource (metadata results) = UK_AVERAGE.
Proof.
  intros Hvalid _ results. subst results.
  destruct (accepted_to_json inputs Hvalid) as (Hpitch & Harea & Hshade & Husage).
  unfold calculateSolarEstimate.
  cbn [recommendedSystemSize numberOfPanels estimatedAnnualGeneration estimatedSystemCost
       metadata irradianceSource option_map].
  destruct (orientation_factor_enumerated (roofOrientation inputs)) as (fo & -> & Hfo0 & Hfo1).
  destruct (getPitchFactor_bounds (roofPitch inputs)) as (fp & -> & Hfp0 & Hfp1).
  cbn [JS.to_number JS.or ukAverageIrradiance SOLAR_CONFIG].
  assert (Hs : 0 <= shadingFactor inputs /\ shadingFactor inputs <= 1).
  { unfold shading_level in Hshade. split; lra. }
  destruct (final_size_between (annualElectricityUsage inputs) 1000 fo fp
              (shadingFactor inputs) (roofArea inputs)) as (size & -> & Hsize0 & Hsize1);
    try lra.
  rewrite panel_count_value, annual_generation_value.
  destruct (system_cost_between size Hsize0 Hsize1) as (cost & -> & Hcost).
  exists size. do 3 eexists.
  do 4 (split; [reflexivity |]).
  split; [exact Hsize0 |]. split; [exact Hsize1 |].
  split; [| split; [| split; [exact Hcost | reflexivity]]].
  - split.
    + change 2%Z with (Qceiling 1.25). apply Qceiling_resp_le. inv_const. lra.
    + rewrite <- (Qceiling_Z 250). apply Qceiling_resp_le. unfold inject_Z. inv_const. lra.
  - assert (Hif : 0 <= 1000 * fo /\ 1000 * fo <= 1000 * 1) by (apply product_le; lra).
    assert (Hiff : 0 <= 1000 * fo * fp /\ 1000 * fo * fp <= 1000 * 1 * 1)
      by (apply product_le; lra).
    assert (He : 0 <= 1000 * fo * fp * shadingFactor inputs
                 /\ 1000 * fo * fp * shadingFactor inputs <= 1000 * 1 * 1 * 1)
      by (apply product_le; lra).
    assert (Hg : 0 <= size * (1000 * fo * fp * shadingFactor inputs)
                 /\ size * (1000 * fo * fp * shadingFactor inputs) <= 100 * (1000 * 1 * 1 * 1))
      by (apply product_le; lra).
    apply round_half_up_between; unfold inject_Z; lra.
Qed.

Lemma accepted_request_estimate_witness :
  valid (validateInputs (to_json validInputs)) = true
  /\ 0 < shadingFactor validInputs
  /\ let results := calculateSolarEstimate "2026-01-15T09:00:00.000Z" validInputs None in
     exists (size : Q) (panels generation cost : Z),
       recommendedSystemSize results = JS.Fin size
       /\ numberOfPanels results = JS.Fin (inject_Z panels)
       /\ estimatedAnnualGeneration results = JS.Fin (inject_Z generation)
       /\ estimatedSystemCost results = JS.Fin (inject_Z cost)
       /\ 0.5 <= size /\ size <= 100
       /\ (2 <= panels <= 250)%Z
       /\ (0 <= generation <= 86000)%Z
       /\ (750 <= cost <= 110000)%Z
       /\ irradianceSource (metadata results) = UK_AVERAGE.
Proof.
  split; [reflexivity |]. split; [reflexivity |].
  apply accepted_request_estimate; reflexivity.
Defined.

(* ================================================================== *)
(** ** The lead score, further *)
(* ================================================================== *)

Lemma add_nan_l (a : JS.number) : (JS.NaN + a)%js = JS.NaN.
Proof. reflexivity. Qed.

Lemma add_nan_r (a : JS.number) : (a + JS.NaN)%js = JS.NaN.
Proof. destruct a; reflexivity. Qed.

Lemma capped_points_nan (cap d : JS.number) :
  JS.min cap (JS.round ((JS.NaN / d) * cap)%js) = JS.NaN.
Proof. cbn. destruct cap; reflexivity. Qed.

(** X16: If any of the six result fields calculateLeadScore reads (system size,
    payback period, total annual benefit, self-consumption ratio, panel
    count, annual generation) is NaN, the total score is NaN and the lead is
    put in category cool, whatever the contact details. *)
Theorem scorer_nan_is_cool (results : CalculatorResults) (contact : LeadContact) :
  some_field_nan results = true ->
  totalScore (calculateLeadScore results contact) = JS.NaN
  /\ category (calculateLeadScore results contact) = cool.
Proof.
  intros H.
  assert (Htotal : totalScore (calculateLeadScore results contact) = JS.NaN).
  { unfold calculateLeadScore. cbn [totalScore].
    unfold some_field_nan in H.
    repeat (apply orb_prop in H as [H | H]).
    - assert (E : systemSizePoints results = JS.NaN).
      { unfold systemSizePoints. destruct (recommendedSystemSize results); try discriminate H.
        apply capped_points_nan. }
      rewrite E. rewrite add_nan_r. reflexivity.
    - assert (E : paybackScore results = JS.NaN).
      { unfold paybackScore. destruct (paybackPeriod results); try discriminate H.
        reflexivity. }
      rewrite E. rewrite add_nan_r. reflexivity.
    - assert (E : savingsPoints results = JS.NaN).
      { unfold savingsPoints. destruct (totalAnnualBenefit results); try discriminate H.
        apply capped_points_nan. }
      rewrite E. rewrite add_nan_r. reflexivity.
    - assert (E : selfConsumptionPoints results = JS.NaN).
      { unfold selfConsumptionPoints.
        destruct (selfConsumptionRatio results); try discriminate H. reflexivity. }
      rewrite E. rewrite add_nan_r. reflexivity.
    - assert (E : roofAreaPoints results = JS.NaN).
      { unfold roofAreaPoints. destruct (numberOfPanels results); try discriminate H.
        reflexivity. }
      rewrite E. rewrite add_nan_r. reflexivity.
    - assert (E : usagePoints results = JS.NaN).
      { unfold usagePoints. destruct (estimatedAnnualGeneration results);
          try discriminate H.
        apply capped_points_nan. }
      rewrite E. rewrite add_nan_r. reflexivity. }
  split; [exact Htotal |].
  unfold calculateLeadScore in *. cbn [totalScore category] in *.
  rewrite Htotal. reflexivity.
Qed.

Lemma scorer_nan_is_cool_witness :
  totalScore (calculateLeadScore (scored_results 6 JS.NaN 745 15 5000 0.5) contact_full)
  = JS.NaN
  /\ category (calculateLeadScore (scored_results 6 JS.NaN 745 15 5000 0.5) contact_full)
     = cool.
Proof. apply scorer_nan_is_cool. reflexivity. Defined.









(** X18: For results within the documented ranges, the total of
    calculateLeadScore is the score of the same results with an email-only
    contact, which lies between 0 and 80, plus 15 when a non-empty phone is
    given and 5 when a non-empty name is given; the email is never read, so
    two contacts with the same phone and name get the same LeadScore. *)
Theorem contact_points (results : CalculatorResults) (contact other : LeadContact) :
  within_documented_ranges results = true ->
  exists base : Q,
    totalScore (calculateLeadScore results (email_only contact)) = JS.Fin base
    /\ 0 <= base /\ base <= 80
    /\ (totalScore (calculateLeadScore results contact)
        === JS.Fin (base + contact_bonus contact))%js
    /\ (phone other = phone contact -> name other = name contact ->
        calculateLeadScore results other = calculateLeadScore results contact).
Proof.
  unfold within_documented_ranges. intros H.
  repeat (apply andb_prop in H; destruct H as [H ?]).
  match goal with Hn : negb _ = true |- _ => apply negb_true_iff in Hn end.
  destruct (systemSizePoints_range results) as (p1 & E1 & ? & ?); [assumption |].
  destruct (paybackScore_range results) as (p2 & E2 & ? & ?); [assumption |].
  destruct (savingsPoints_range results) as (p3 & E3 & ? & ?); [assumption |].
  destruct (selfConsumptionPoints_range results) as (p6 & E6 & ? & ?); [assumption .. |].
  destruct (roofAreaPoints_range results) as (p7 & E7 & ? & ?); [assumption |].
  destruct (usagePoints_range results) as (p8 & E8 & ? & ?); [assumption |].
  unfold calculateLeadScore. cbn [totalScore].
  rewrite E1, E2, E3, E6, E7, E8.
  unfold phonePoints, namePoints, contact_bonus, email_only.
  cbn [phone name JS.truthy_string w_phoneProvided w_nameProvided SCORING_WEIGHTS].
  js_fin. eexists. split; [reflexivity |].
  split; [lra |]. split; [lra |]. split.
  - destruct (JS.truthy_string (phone contact)), (JS.truthy_string (name contact));
      js_fin; cbn [JS.strict_eq]; ring.
  - intros -> ->. reflexivity.
Qed.

Lemma contact_points_witness :
  exists base : Q,
    totalScore (calculateLeadScore example_results (email_only contact_full)) = JS.Fin base
    /\ 0 <= base /\ base <= 80
    /\ (totalScore (calculateLeadScore example_results contact_full)
        === JS.Fin (base + contact_bonus contact_full))%js
    /\ (phone contact_full = phone contact_full ->
        name contact_full = name contact_full ->
        calculateLeadScore example_results contact_full
        = calculateLeadScore example_results contact_full).
Proof. apply (contact_points example_results contact_full contact_full). vm_compute. reflexivity.
Defined.

(* ================================================================== *)
(** ** The PVGIS client *)
(* ================================================================== *)

(** A lookup that hits returns a value of the table. *)
Lemma lookup_Forall (P : Q -> Prop) (key : string) (table : list (string * Q)) :
  Forall (fun entry => P (snd entry)) table ->
  forall a : JS.number, JS.lookup key table = Some a -> exists v : Q, a = JS.Fin v /\ P v.
Proof.
  intros Hall. induction Hall as [| [k q] rest Hq _ IH]; intros a; cbn [JS.lookup].
  - discriminate.
  - destruct (String.eqb key k).
    + intros [= <-]. exists q. split; [reflexivity | exact Hq].
    + apply IH.
Qed.

Lemma regional_values_range :
  Forall (fun entry => 800 <= snd entry /\ snd entry <= 1100) REGIONAL_IRRADIANCE.
Proof.
  unfold REGIONAL_IRRADIANCE. repeat constructor; cbn [snd]; discriminate.
Qed.

Lemma regional_fallback_value (region : string) :
  exists v : Q,
    Pvgis.getRegionalIrradianceFallback region = Some (JS.Fin v)
    /\ 800 <= v /\ v <= 1100
    /\ (JS.lookup region REGIONAL_IRRADIANCE = None -> v = 950).
Proof.
  unfold Pvgis.getRegionalIrradianceFallback.
  destruct (JS.lookup region REGIONAL_IRRADIANCE) as [a |] eqn:Hlookup.
  - destruct (lookup_Forall (fun v => 800 <= v /\ v <= 1100) region _
                regional_values_range a Hlookup) as (v & -> & Hv).
    pose proof (lookup_values_truthy region _ regional_values_nonzero _ Hlookup) as Ht.
    exists v. cbn [JS.or]. rewrite Ht.
    split; [reflexivity |]. split; [apply Hv |]. split; [apply Hv | discriminate].
  - exists 950. cbn [JS.or].
    split; [reflexivity |]. split; [discriminate |]. split; [discriminate | reflexivity].
Qed.

(** X19: For every region string that is not a property name inherited from
    Object.prototype, getRegionalIrradiance of the engine and
    getRegionalIrradianceFallback of the PVGIS client return the same finite
    value, between 800 and 1100 kWh/m2/year, and 950 when the region is not
    a key of REGIONAL_IRRADIANCE. *)
Theorem regional_irradiance_range (region : string) :
  JS.inherited region = false ->
  getRegionalIrradiance region = Pvgis.getRegionalIrradianceFallback region
  /\ exists v : Q,
       getRegionalIrradiance region = Some (JS.Fin v)
       /\ 800 <= v /\ v <= 1100
       /\ (JS.lookup region REGIONAL_IRRADIANCE = None -> v = 950).
Proof.
  intros _. split; [reflexivity |]. apply regional_fallback_value.
Qed.

Lemma regional_irradiance_range_witness :
  getRegionalIrradiance "Cornwall" = Pvgis.getRegionalIrradianceFallback "Cornwall"
  /\ exists v : Q,
       getRegionalIrradiance "Cornwall" = Some (JS.Fin v)
       /\ 800 <= v /\ v <= 1100
       /\ (JS.lookup "Cornwall" REGIONAL_IRRADIANCE = None -> v = 950).
Proof. apply regional_irradiance_range. reflexivity. Defined.





Lemma irradiance_value_fallback (result : Pvgis.PVGISResponse) (region : option string) :
  Pvgis.r_success result && Pvgis.truthy_number (Pvgis.r_annualIrradiance result) = false ->
  exists v : Q,
    Pvgis.getIrradianceValue result region = JS.Fin v /\ 800 <= v /\ v <= 1100
    /\ (JS.truthy_string region = false -> v = 1000).
Proof.
  intros Hfrom. unfold Pvgis.getIrradianceValue. rewrite Hfrom.
  destruct region as [r |].
  - destruct (JS.truthy_string (Some r)).
    + destruct (regional_fallback_value r) as (v & -> & Hlo & Hhi & _).
      exists v. cbn [JS.to_number]. repeat split; try assumption. discriminate.
    + exists 1000. repeat split; discriminate.
  - exists 1000. repeat split; discriminate.
Qed.

(** X21: Whatever the fetch resolved to, and for every region that is absent or
    not a property name inherited from Object.prototype, getIrradianceValue
    returns a truthy number (never 0, NaN or undefined): the response's
    annualIrradiance when the response is a success with a truthy
    annualIrradiance, and otherwise a finite fallback between 800 and 1100,
    which is 1000 when no region (or an empty one) is given. *)
Theorem irradiance_value_usable (result : Pvgis.PVGISResponse) (region : option string) :
  plain_region region ->
  let value := Pvgis.getIrradianceValue result region in
  let fromPvgis :=
    Pvgis.r_success result && Pvgis.truthy_number (Pvgis.r_annualIrradiance result) in
  JS.truthy value = true
  /\ (fromPvgis = true -> Pvgis.r_annualIrradiance result = Some value)
  /\ (fromPvgis = false ->
      exists v : Q,
        value = JS.Fin v /\ 800 <= v /\ v <= 1100
        /\ (JS.truthy_string region = false -> v = 1000)).
Proof.
  intros _. cbv zeta.
  destruct (Pvgis.r_success result && Pvgis.truthy_number (Pvgis.r_annualIrradiance result))
    eqn:Hfrom.
  - unfold Pvgis.getIrradianceValue. rewrite Hfrom.
    apply andb_prop in Hfrom as [_ Ht].
    destruct (Pvgis.r_annualIrradiance result) as [a |]; [| discriminate Ht].
    cbn [JS.to_number Pvgis.truthy_number] in *.
    split; [exact Ht |]. split; [reflexivity | discriminate].
  - destruct (irradiance_value_fallback result region Hfrom) as (v & Hv & Hlo & Hhi & Hnone).
    rewrite Hv.
    split; [| split; [discriminate | intros _; exists v; auto]].
    cbn [JS.truthy]. apply negb_true_iff.
    destruct (Qeq_bool v 0) eqn:Hz; [| reflexivity].
    apply Qeq_bool_iff in Hz. lra.
Qed.

Lemma irradiance_value_usable_witness :
  let value := Pvgis.getIrradianceValue (unavailable "PVGIS unavailable") (Some "London") in
  let fromPvgis :=
    Pvgis.r_success (unavailable "PVGIS unavailable")
    && Pvgis.truthy_number (Pvgis.r_annualIrradiance (unavailable "PVGIS unavailable")) in
  JS.truthy value = true
  /\ (fromPvgis = true ->
      Pvgis.r_annualIrradiance (unavailable "PVGIS unavailable") = Some value)
  /\ (fromPvgis = false ->
      exists v : Q,
        value = JS.Fin v /\ 800 <= v /\ v <= 1100
        /\ (JS.truthy_string (Some "London") = false -> v = 1000)).
Proof.
  apply (irradiance_value_usable (unavailable "PVGIS unavailable") (Some "London")).
  reflexivity.
Defined.

(** X22: When the PVGIS fetch failed, and the region is absent or not a property
    name inherited from Object.prototype, the value getIrradianceValue
    returns is a regional or UK-average fallback between 800 and 1100, and
    calculateSolarEstimate called with it uses it as given and tags
    metadata.irradianceSource as PVGIS: the tag follows the truthiness of
    the argument, not where the number came from. *)
Theorem fallback_irradiance_tagged_pvgis
    (result : Pvgis.PVGISResponse) (region : option string)
    (now : string) (inputs : CalculatorInputs) :
  Pvgis.r_success result = false ->
  plain_region region ->
  exists v : Q,
    Pvgis.getIrradianceValue result region = JS.Fin v
    /\ 800 <= v /\ v <= 1100
    /\ let results := calculateSolarEstimate now inputs (Some v) in
       irradianceUsed (metadata results) = JS.Fin v
       /\ irradianceSource (metadata results) = PVGIS.
Proof.
  intros Hfailed _.
  destruct (irradiance_value_fallback result region) as (v & Hv & Hlo & Hhi & _).
  { rewrite Hfailed. reflexivity. }
  exists v. split; [exact Hv |]. split; [exact Hlo |]. split; [exact Hhi |].
  cbv zeta. unfold calculateSolarEstimate.
  cbn [metadata irradianceUsed irradianceSource option_map JS.or JS.truthy].
  assert (Hnz : Qeq_bool v 0 = false).
  { destruct (Qeq_bool v 0) eqn:Hz; [| reflexivity]. apply Qeq_bool_iff in Hz. lra. }
  rewrite Hnz. split; reflexivity.
Qed.

Lemma fallback_irradiance_tagged_pvgis_witness :
  exists v : Q,
    Pvgis.getIrradianceValue (unavailable "PVGIS unavailable") (Some "Wales") = JS.Fin v
    /\ 800 <= v /\ v <= 1100
    /\ let results :=
         calculateSolarEstimate "2026-01-15T09:00:00.000Z" validInputs (Some v) in
       irradianceUsed (metadata results) = JS.Fin v
       /\ irradianceSource (metadata results) = PVGIS.
Proof. apply fallback_irradiance_tagged_pvgis; reflexivity. Defined.



(* ================================================================== *)
(** ** The rate limiter *)
(* ================================================================== *)

Lemma get_set_same (ip : string) (record : LeadsApi.RateRecord)
    (store : LeadsApi.RateLimitStore) :
  LeadsApi.get ip (LeadsApi.set ip record store) = Some record.
Proof.
  induction store as [| [key old] rest IH]; cbn [LeadsApi.set LeadsApi.get].
  - rewrite String.eqb_refl. reflexivity.
  - destruct (String.eqb ip key) eqn:Hk; cbn [LeadsApi.get]; rewrite Hk; [reflexivity | exact IH].
Qed.

Lemma get_set_other (ip other : string) (record : LeadsApi.RateRecord)
    (store : LeadsApi.RateLimitStore) :
  other <> ip -> LeadsApi.get ip (LeadsApi.set other record store) = LeadsApi.get ip store.
Proof.
  intros Hne. induction store as [| [key old] rest IH]; cbn [LeadsApi.set LeadsApi.get].
  - destruct (String.eqb ip other) eqn:Hk; [| reflexivity].
    apply String.eqb_eq in Hk. congruence.
  - destruct (String.eqb other key) eqn:Hk; cbn [LeadsApi.get].
    + apply String.eqb_eq in Hk. subst key.
      destruct (String.eqb ip other) eqn:Hi; [| reflexivity].
      apply String.eqb_eq in Hi. congruence.
    + rewrite IH. reflexivity.
Qed.

(** A request of another client leaves the record of [ip] as it is. *)
Lemma checkRateLimit_other (now : Z) (ip other : string) (store : LeadsApi.RateLimitStore) :
  other <> ip ->
  LeadsApi.get ip (snd (LeadsApi.checkRateLimit now other store)) = LeadsApi.get ip store.
Proof.
  intros Hne. unfold LeadsApi.checkRateLimit.
  destruct (LeadsApi.get other store) as [record |]; cbn [snd].
  - destruct (now >? LeadsApi.resetTime record)%Z; cbn [snd];
      [apply get_set_other; exact Hne |].
    destruct (LeadsApi.count record >=? 5)%Z; cbn [snd]; [reflexivity |].
    apply get_set_other; exact Hne.
  - apply get_set_other; exact Hne.
Qed.

Lemma quota_cons (used : Z) (n : nat) :
  quota used (Datatypes.S n) = (used <? 5)%Z :: quota (used + 1) n.
Proof.
  unfold quota. cbn [List.seq map]. f_equal; [f_equal; lia |].
  rewrite <- seq_shift, map_map. apply map_ext. intros k. f_equal. lia.
Qed.

Lemma quota_full (used used' : Z) (n : nat) :
  (5 <= used)%Z -> (5 <= used')%Z -> quota used n = quota used' n.
Proof.
  intros H H'. unfold quota. apply map_ext. intros k.
  rewrite (proj2 (Z.ltb_ge _ _)) by lia. rewrite (proj2 (Z.ltb_ge _ _)) by lia. reflexivity.
Qed.

(** Inside a window the answers follow the quota left. *)
Lemma answers_inside_window (ip : string) (requests : list (Z * string)) :
  forall (store : LeadsApi.RateLimitStore) (used deadline : Z),
    LeadsApi.get ip store = Some {| LeadsApi.count := used; LeadsApi.resetTime := deadline |} ->
    (1 <= used <= 5)%Z ->
    all_by deadline ip requests ->
    fst (LeadsApi.answers ip requests store)
    = quota used (List.length (fst (LeadsApi.answers ip requests store))).
Proof.
  induction requests as [| [now client] rest IH]; intros store used deadline Hget Hused Hall;
    cbn [LeadsApi.answers].
  - reflexivity.
  - inversion Hall as [| ? ? Hnow Hrest]; subst. cbn [fst snd] in Hnow.
    destruct (LeadsApi.checkRateLimit now client store) as [allowed store'] eqn:Hcheck.
    destruct (LeadsApi.answers ip rest store') as [tail final] eqn:Htail.
    cbn [fst].
    destruct (String.eqb client ip) eqn:Hclient.
    + apply String.eqb_eq in Hclient. subst client. specialize (Hnow eq_refl).
      unfold LeadsApi.checkRateLimit in Hcheck. rewrite Hget in Hcheck.
      cbn [LeadsApi.resetTime LeadsApi.count] in Hcheck.
      assert (Hin : (now >? deadline)%Z = false) by lia.
      rewrite Hin in Hcheck.
      destruct (used >=? 5)%Z eqn:Hfull.
      * injection Hcheck as <- <-.
        specialize (IH store used deadline Hget Hused Hrest).
        rewrite Htail in IH. cbn [fst] in IH.
        cbn [List.length]. rewrite quota_cons.
        rewrite (proj2 (Z.ltb_ge used 5)) by lia. f_equal.
        rewrite IH at 1. apply quota_full; lia.
      * injection Hcheck as <- <-.
        specialize (IH _ (used + 1)%Z deadline (get_set_same ip _ store) ltac:(lia) Hrest).
        rewrite Htail in IH. cbn [fst] in IH.
        cbn [List.length]. rewrite quota_cons.
        rewrite (proj2 (Z.ltb_lt used 5)) by lia. f_equal. exact IH.
    + apply String.eqb_neq in Hclient.
      pose proof (checkRateLimit_other now ip client store Hclient) as Hkeep.
      rewrite Hcheck in Hkeep. cbn [snd] in Hkeep. rewrite Hget in Hkeep.
      specialize (IH store' used deadline Hkeep Hused Hrest).
      rewrite Htail in IH. exact IH.
Qed.

Lemma quota_count (n : nat) :
  forall used : Z,
    (0 <= used <= 5)%Z ->
    count_occ bool_dec (quota used n) true = Nat.min n (Z.to_nat (5 - used)).
Proof.
  induction n as [| n IH]; intros used Hused.
  - reflexivity.
  - rewrite quota_cons. destruct (used <? 5)%Z eqn:Hlt.
    + apply Z.ltb_lt in Hlt. cbn [count_occ]. destruct (bool_dec true true); [| congruence].
      rewrite IH by lia. replace (Z.to_nat (5 - used)) with (Datatypes.S (Z.to_nat (5 - (used + 1))))
        by lia.
      reflexivity.
    + apply Z.ltb_ge in Hlt. cbn [count_occ].
      destruct (bool_dec false true); [discriminate |].
      rewrite (quota_full (used + 1) 5 n) by lia. rewrite IH by lia.
      replace (Z.to_nat (5 - used)) with 0%nat by lia.
      change (Z.to_nat (5 - 5)) with 0%nat. rewrite !Nat.min_0_r. reflexivity.
Qed.

(** X24: checkRateLimit of the leads endpoint allows exactly the first five
    requests of a client in a window: when a client's request at time t
    opens a window (no record, or the old window is over), then among that
    request and the client's later requests made up to t + 3600000 ms
    inclusive, the first five are allowed and all others refused, whatever
    requests of other clients come in between. *)
Theorem rate_limit_five_per_window
    (ip : string) (now : Z) (requests : list (Z * string)) (store : LeadsApi.RateLimitStore) :
  window_over now ip store ->
  all_by (now + 3600000) ip requests ->
  let given := fst (LeadsApi.answers ip ((now, ip) :: requests) store) in
  given = quota 0 (List.length given)
  /\ count_occ bool_dec given true = Nat.min (List.length given) 5.
Proof.
  intros Hover Hall given.
  assert (Hgiven : given = quota 0 (List.length given)).
  { subst given. cbn [LeadsApi.answers].
    assert (Hcheck : LeadsApi.checkRateLimit now ip store
                     = (true, LeadsApi.set ip {| LeadsApi.count := 1;
                                                 LeadsApi.resetTime := now + 3600000 |} store)).
    { unfold LeadsApi.checkRateLimit, window_over in *.
      destruct (LeadsApi.get ip store) as [record |]; [| reflexivity].
      rewrite (proj2 (Z.gtb_lt _ _)) by exact Hover. reflexivity. }
    rewrite Hcheck.
    pose proof (answers_inside_window ip requests _ 1%Z (now + 3600000)%Z
                  (get_set_same ip _ store) ltac:(lia) Hall) as Hin.
    destruct (LeadsApi.answers ip requests _) as [tail final].
    cbn [fst] in *. rewrite String.eqb_refl. cbn [List.length].
    rewrite quota_cons. f_equal. exact Hin. }
  split; [exact Hgiven |].
  rewrite Hgiven at 1. apply quota_count. lia.
Qed.

Lemma rate_limit_five_per_window_witness :
  let given :=
    fst (LeadsApi.answers "203.0.113.7"
           ((1700000000000%Z, "203.0.113.7")
              :: [(1700000001000%Z, "203.0.113.7"); (1700000002000%Z, "198.51.100.2");
                  (1700000003000%Z, "203.0.113.7"); (1700000004000%Z, "203.0.113.7");
                  (1700000005000%Z, "203.0.113.7"); (1700000006000%Z, "203.0.113.7");
                  (1700003600000%Z, "203.0.113.7")])
           []) in
  given = quota 0 (List.length given)
  /\ count_occ bool_dec given true = Nat.min (List.length given) 5.
Proof.
  apply rate_limit_five_per_window.
  - exact I.
  - repeat constructor; cbn; intros; lia.
Defined.
